(** * wordbubble: the text-to-layout pipeline of [app.js]

    A shallow embedding of the pipeline functions of [app.js]
    ([countWords], [inference], [clustering], [improveLayout], [visualize],
    [optimalFontSize] and the part of [Chart] that calls it), and the
    properties of the design document checked against them.

    The file follows the later of the two versions of [app.js], in which
    [visualize] takes the radius range [minR], [maxR]; the earlier one is
    the same pipeline with the range fixed to 10 and 30.

    Conventions.
    - JavaScript numbers that carry coordinates, radii and font sizes are
      real numbers ([R]), with [NaN] and [undefined] added where the code
      can produce them ([jsnum]); a stored count is a [jsval].  Arithmetic
      is exact, except in the radius scale in double precision
      ([radius_scale_fl]), where every operation is rounded.
    - A plain JavaScript object used as a map is a list of its own
      properties in creation order together with the names it inherits from
      [Object.prototype]; the vocabulary (a parsed JSON object that is only
      read) is a [gmap string nat] of its own keys.
    - A call that can throw or not return yields an [outcome].
    - The libraries [app.js] imports are not part of it.  d3-array's
      [extent] and d3-scale's [scaleSqrt] and the entry of skmeans are
      written out from the libraries' sources; tsne-js, the rounds of
      skmeans after its initialisation and the d3-force simulation are
      functions that are not looked into ([Env]). *)

From Stdlib Require Import List Ascii String NArith Arith Bool Lia Reals Lra.
From Stdlib Require Import Permutation Sorted.
From stdpp Require Import base strings gmap.
Import ListNotations.

Local Open Scope string_scope.
Local Open Scope list_scope.

(** ** JavaScript objects used as maps *)

Module JsObject.

(** The values [countWords] stores: a number, the inherited member of
    [Object.prototype] a read falls back to, or the string that
    [member + 1] produces ([String(member)] followed by [ones] copies of
    the character 1). *)
Inductive jsval : Type :=
| JNum (n : nat)
| JMember (name : string)
| JStr (name : string) (ones : nat).

(** [v + 1]: numeric addition on a number, string concatenation otherwise. *)
Definition plus_one (v : jsval) : jsval :=
  match v with
  | JNum n => JNum (n + 1)
  | JMember m => JStr m 1
  | JStr m k => JStr m (k + 1)
  end.

(** Own properties, in creation order. *)
Definition props : Type := list (string * jsval).

(** The property names every plain object inherits from [Object.prototype]. *)
Definition Object_prototype : list string :=
  [ "constructor"; "hasOwnProperty"; "isPrototypeOf"; "propertyIsEnumerable";
    "toLocaleString"; "toString"; "valueOf"; "__proto__";
    "__defineGetter__"; "__defineSetter__"; "__lookupGetter__";
    "__lookupSetter__" ].

Definition inherited (k : string) : bool :=
  existsb (String.eqb k) Object_prototype.

Fixpoint own (o : props) (k : string) : option jsval :=
  match o with
  | [] => None
  | (k', v) :: o' => if String.eqb k k' then Some v else own o' k
  end.

(** [k in o]: own properties first, then the prototype. *)
Definition has_property (o : props) (k : string) : bool :=
  match own o k with
  | Some _ => true
  | None => inherited k
  end.

(** [o[k]] for a [k] with [k in o]. *)
Definition get (o : props) (k : string) : jsval :=
  match own o k with
  | Some v => v
  | None => JMember k
  end.

Fixpoint put (o : props) (k : string) (v : jsval) : props :=
  match o with
  | [] => [(k, v)]
  | (k', v') :: o' =>
      if String.eqb k k' then (k', v) :: o' else (k', v') :: put o' k v
  end.

(** [o[k] = v] for a number or string [v]: an existing own property keeps
    its place, a new one is created last; [__proto__] is an accessor whose
    setter ignores a value that is not an object. *)
Definition set (o : props) (k : string) (v : jsval) : props :=
  if String.eqb k "__proto__" then o else put o k v.

(** Array indices: the canonical decimal strings of 0 .. 2^32 - 2. *)
Definition digit_of (c : ascii) : option N :=
  let n := N_of_ascii c in
  if ((48 <=? n) && (n <=? 57))%N then Some (n - 48)%N else None.

Fixpoint digits_value (acc : N) (s : string) : option N :=
  match s with
  | EmptyString => Some acc
  | String c s' =>
      match digit_of c with
      | Some d => digits_value (10 * acc + d)%N s'
      | None => None
      end
  end.

Definition array_index (s : string) : option N :=
  match s with
  | EmptyString => None
  | String c s' =>
      if Ascii.eqb c "0"
      then match s' with EmptyString => Some 0%N | _ => None end
      else match digits_value 0 s with
           | Some n => if (n <=? 4294967294)%N then Some n else None
           | None => None
           end
  end.

Fixpoint insert_by_index (i : N) (e : string * jsval)
    (l : list (N * (string * jsval))) : list (N * (string * jsval)) :=
  match l with
  | [] => [(i, e)]
  | (j, e') :: l' =>
      if (i <=? j)%N then (i, e) :: l else (j, e') :: insert_by_index i e l'
  end.

(** The own properties whose name is an array index, in ascending order of
    the index, and the others in creation order. *)
Fixpoint index_props (o : props) : list (N * (string * jsval)) :=
  match o with
  | [] => []
  | (k, v) :: o' =>
      match array_index k with
      | Some i => insert_by_index i (k, v) (index_props o')
      | None => index_props o'
      end
  end.

Fixpoint string_props (o : props) : props :=
  match o with
  | [] => []
  | (k, v) :: o' =>
      match array_index k with
      | Some _ => string_props o'
      | None => (k, v) :: string_props o'
      end
  end.

(** [Object.entries(o)]: array-index names first, ascending, then the other
    names in creation order. *)
Definition Object_entries (o : props) : props :=
  List.map snd (index_props o) ++ string_props o.

End JsObject.

(** ** The Frequency Counter *)

Import JsObject.

(** [{ word, count }], an element of the array [countWords] returns. *)
Record Entry : Type := mkEntry { entry_word : string; entry_count : jsval }.

(** One round of the loop of [countWords]. *)
Definition count_step (count : props) (word : string) : props :=
  let count1 := if has_property count word then count else set count word (JNum 0) in
  set count1 word (plus_one (get count1 word)).

Definition countWords (words : list string) : list Entry :=
  let count := fold_left count_step words [] in
  List.map (fun '(word, count) => mkEntry word count) (Object_entries count).

(** The distinct elements of a sequence, each at its first occurrence. *)
Fixpoint distinct (l : list string) : list string :=
  match l with
  | [] => []
  | x :: t => x :: List.filter (fun y => negb (String.eqb y x)) (distinct t)
  end.

Definition occurrences (w : string) (l : list string) : nat :=
  count_occ string_dec l w.

(** What the design document asks of the counter. *)
Definition frequency_table (words : list string) : list Entry :=
  List.map (fun w => mkEntry w (JNum (occurrences w words))) (distinct words).

(** The order in which an object lists the keys [ks] created in that
    order: the array indices ascending, then the other keys as created. *)
Fixpoint insert_key (i : N) (k : string) (l : list (N * string)) : list (N * string) :=
  match l with
  | [] => [(i, k)]
  | (j, k') :: l' =>
      if (i <=? j)%N then (i, k) :: l else (j, k') :: insert_key i k l'
  end.

Fixpoint index_keys (ks : list string) : list (N * string) :=
  match ks with
  | [] => []
  | k :: ks' =>
      match array_index k with
      | Some i => insert_key i k (index_keys ks')
      | None => index_keys ks'
      end
  end.

Definition string_keys (ks : list string) : list string :=
  List.filter (fun k => match array_index k with Some _ => false | None => true end) ks.

Definition key_order (ks : list string) : list string :=
  List.map snd (index_keys ks) ++ string_keys ks.

(** The object [count] after the loop has read the words [p]. *)
Definition counted (p : list string) : props :=
  List.map (fun w => (w, JNum (occurrences w p))) (distinct p).

(** ** Calls that can fail *)

Inductive error : Type :=
| TypeError          (* a property read on [undefined] *)
| LibraryError.      (* an exception raised inside a library *)

(** The result of a call: a value, an exception, or no return at all. *)
Inductive outcome (A : Type) : Type :=
| Returns (a : A)
| Throws (e : error)
| Hangs.

Arguments Returns {A} a.
Arguments Throws {A} e.
Arguments Hangs {A}.

Definition bind {A B : Type} (m : outcome A) (f : A -> outcome B) : outcome B :=
  match m with
  | Returns a => f a
  | Throws e => Throws e
  | Hangs => Hangs
  end.

Notation "x <- m ;; k" := (bind m (fun x => k))
  (at level 100, m at next level, right associativity).

(** ** JavaScript numbers *)

(** A number, [NaN], or [undefined] (which every arithmetic operator reads
    as [NaN]). *)
Inductive jsnum : Type :=
| Num (x : R)
| NaN
| Undefined.

Definition lift2 (f : R -> R -> R) (a b : jsnum) : jsnum :=
  match a, b with
  | Num x, Num y => Num (f x y)
  | _, _ => NaN
  end.

(** [+v] for a stored count. *)
Definition number (v : jsval) : jsnum :=
  match v with
  | JNum n => Num (INR n)
  | JMember _ | JStr _ _ => NaN
  end.

(** [String(member)] for a member of [Object.prototype]: the source text
    of a native function, which starts with the name of the function
    ([Object] for [constructor]); [__proto__] reads the prototype itself. *)
Definition member_text (m : string) : string :=
  if String.eqb m "__proto__" then "[object Object]"
  else ("function " ++ (if String.eqb m "constructor" then "Object" else m)
        ++ "() { [native code] }")%string.

Fixpoint ones (k : nat) : string :=
  match k with
  | O => ""
  | S k' => ("1" ++ ones k')%string
  end.

(** The string a stored count is compared as; [None] for a number. *)
Definition text_of (v : jsval) : option string :=
  match v with
  | JNum _ => None
  | JMember m => Some (member_text m)
  | JStr m k => Some (member_text m ++ ones k)%string
  end.

(** [a < b] on stored counts: numeric on two numbers, by code units on two
    strings, false on a number and a string that is not numeric. *)
Definition js_lt (a b : jsval) : bool :=
  match a, b with
  | JNum m, JNum n => Nat.ltb m n
  | _, _ =>
      match text_of a, text_of b with
      | Some s, Some t => String.ltb s t
      | _, _ => false
      end
  end.

(** ** The libraries the pipeline calls *)

(** d3-array and d3-scale, as far as [visualize] uses them: [d3.extent]
    with an accessor, and [d3.scaleSqrt().domain(..).range(..)] applied to a
    value.  These follow the libraries' sources ([extent.js]; [continuous.js]:
    [normalize], [bimap] and the scale function of [transformer]; [pow.js]:
    [transformSqrt]; d3-interpolate's [number.js]). *)
Module D3.

Definition extent_step (acc : option (jsval * jsval)) (value : jsval)
    : option (jsval * jsval) :=
  match acc with
  | None => if negb (js_lt value value) then Some (value, value) else None
  | Some (min, max) =>
      Some (if js_lt value min then value else min,
            if js_lt max value then value else max)
  end.

(** [d3.extent(values, valueof)]: [None] is [[undefined, undefined]]. *)
Definition extent {A : Type} (values : list A) (valueof : A -> jsval)
    : option (jsval * jsval) :=
  fold_left (fun acc v => extent_step acc (valueof v)) values None.

(** [x < 0 ? -Math.sqrt(-x) : Math.sqrt(x)] *)
Definition transformSqrt (x : R) : R :=
  if Rlt_dec x 0 then - sqrt (- x) else sqrt x.

Definition transform (x : jsnum) : jsnum :=
  match x with
  | Num v => Num (transformSqrt v)
  | _ => NaN
  end.

(** [(b -= a) ? x => (x - a) / b : constant(isNaN(b) ? NaN : 0.5)] *)
Definition normalize (a b : jsnum) : jsnum -> jsnum :=
  match lift2 Rminus b a with
  | Num d =>
      if Req_dec_T d 0 then (fun _ => Num (1 / 2))
      else (fun x => lift2 Rdiv (lift2 Rminus x a) (Num d))
  | _ => (fun _ => NaN)
  end.

(** [t => a * (1 - t) + b * t] *)
Definition interpolateNumber (a b : R) (t : jsnum) : jsnum :=
  lift2 Rplus (lift2 Rmult (Num a) (lift2 Rminus (Num 1) t))
              (lift2 Rmult (Num b) t).

(** [d1 < d0]; false when either is [NaN]. *)
Definition num_lt (a b : jsnum) : bool :=
  match a, b with
  | Num x, Num y => if Rlt_dec x y then true else false
  | _, _ => false
  end.

Definition bimap (domain : jsnum * jsnum) (range : R * R) : jsnum -> jsnum :=
  let '(d0, d1) := domain in
  let '(r0, r1) := range in
  if num_lt d1 d0
  then (fun x => interpolateNumber r1 r0 (normalize d1 d0 x))
  else (fun x => interpolateNumber r0 r1 (normalize d0 d1 x)).

(** [d3.scaleSqrt().domain(domain).range(range)] applied to [x]: the
    scale's [unknown] value ([undefined]) for an [x] that is not a number. *)
Definition scaleSqrt (domain : jsnum * jsnum) (range : R * R) (x : jsval) : jsnum :=
  match number x with
  | Num v => bimap (transform (fst domain), transform (snd domain)) range
                   (transform (Num v))
  | _ => Undefined
  end.

(** [scale.domain(d3.extent(..))]: each bound coerced to a number. *)
Definition domain_of (e : option (jsval * jsval)) : jsnum * jsnum :=
  match e with
  | Some (min, max) => (number min, number max)
  | None => (NaN, NaN)
  end.

(** *** The scale in double precision

    The definitions above take every arithmetic result exactly.  The code
    computes in doubles: the result of an operation is the double nearest
    to the exact result.  Here is the same scale with that rounding, [rnd],
    applied after every operation ([Math.sqrt], [-], [/], [*], [+]);
    comparisons and negation are exact.  With the identity for [rnd] it is
    the scale above. *)
Section Doubles.

Variable rnd : R -> R.

Definition round2 (f : R -> R -> R) (a b : jsnum) : jsnum :=
  match a, b with
  | Num x, Num y => Num (rnd (f x y))
  | _, _ => NaN
  end.

Definition transformSqrt_fl (x : R) : R :=
  if Rlt_dec x 0 then - rnd (sqrt (- x)) else rnd (sqrt x).

Definition transform_fl (x : jsnum) : jsnum :=
  match x with
  | Num v => Num (transformSqrt_fl v)
  | _ => NaN
  end.

Definition normalize_fl (a b : jsnum) : jsnum -> jsnum :=
  match round2 Rminus b a with
  | Num d =>
      if Req_dec_T d 0 then (fun _ => Num (1 / 2))
      else (fun x => round2 Rdiv (round2 Rminus x a) (Num d))
  | _ => (fun _ => NaN)
  end.

Definition interpolateNumber_fl (a b : R) (t : jsnum) : jsnum :=
  round2 Rplus (round2 Rmult (Num a) (round2 Rminus (Num 1) t))
               (round2 Rmult (Num b) t).

Definition bimap_fl (domain : jsnum * jsnum) (range : R * R) : jsnum -> jsnum :=
  let '(d0, d1) := domain in
  let '(r0, r1) := range in
  if num_lt d1 d0
  then (fun x => interpolateNumber_fl r1 r0 (normalize_fl d1 d0 x))
  else (fun x => interpolateNumber_fl r0 r1 (normalize_fl d0 d1 x)).

Definition scaleSqrt_fl (domain : jsnum * jsnum) (range : R * R) (x : jsval) : jsnum :=
  match number x with
  | Num v => bimap_fl (transform_fl (fst domain), transform_fl (snd domain)) range
                      (transform_fl (Num v))
  | _ => Undefined
  end.

End Doubles.

End D3.

(** What [app.js] takes from outside: the kuromoji tokenizer, the
    vocabulary and the embedding weights, and the tsne-js, skmeans and
    d3-force libraries.  The three library calls are functions of their
    arguments that are not looked into; a run of the pipeline fixes one
    such function for each call it makes. *)
Record Env : Type := mkEnv {
  (** [tokenizer.tokenize(text).map(({ basic_form }) => basic_form)] *)
  basic_forms : string -> list string;
  (** [vocabulary.json]: own keys and their indices *)
  vocabulary : gmap string nat;
  (** the transposed weights of layer 3, one row per vocabulary index *)
  weight : list (list R);
  (** [new TSNE(..)], [init], [run], [getOutputScaled()]: rows of two
      coordinates *)
  tsne : list (option (list R)) -> outcome (list (R * R));
  (** [skmeans(data, k).idxs] *)
  skmeans : list (R * R) -> Z -> outcome (list nat);
  (** d3-force: the position of node [i] after 100 ticks of the simulation
      configured in [improveLayout], from the nodes' [x], [y] and [r] *)
  settle : list (R * R * jsnum) -> nat -> R * R;
  (** d3-force: the velocity of node [i] after those ticks *)
  velocity : list (R * R * jsnum) -> nat -> R * R
}.

(** ** The pipeline *)

(** An element of the array [visualize] returns.  [index], [vx] and [vy]
    are the properties [d3.forceSimulation] assigns to each of its nodes;
    a Word has none of them before [improveLayout]. *)
Record Word : Type := mkWord {
  word : string;
  count : jsval;
  x : R;
  y : R;
  x0 : R;
  y0 : R;
  group : option nat;     (* [None]: [undefined] *)
  r : jsnum;
  index : option nat;     (* [None]: the Word has no such property *)
  vx : option R;
  vy : option R
}.

Section Pipeline.

Variable env : Env.

(** [word in vocabulary] *)
Definition in_vocabulary (w : string) : bool :=
  match vocabulary env !! w with
  | Some _ => true
  | None => inherited w
  end.

Definition tokenize (text : string) : list string :=
  List.filter in_vocabulary (basic_forms env text).

(** [weight[vocabulary[word]]]; [None] is [undefined].  A word that is not
    an own key of the vocabulary reads [undefined] or a member of
    [Object.prototype], and no row of [weight] has such an index. *)
Definition embedding (w : string) : option (list R) :=
  match vocabulary env !! w with
  | Some i => nth_error (weight env) i
  | None => None
  end.

Definition inference (words : list Entry) : list (option (list R)) :=
  List.map (fun e => embedding (entry_word e)) words.

Definition dimensionalityReduction (inputData : list (option (list R)))
    : outcome (list (R * R)) :=
  tsne env inputData.

Definition clustering (inputData : list (R * R)) (numClusters : Z)
    : outcome (list nat) :=
  skmeans env inputData numClusters.

Definition body (w : Word) : R * R * jsnum := (x w, y w, r w).

(** What the simulation leaves of node [i]: its position, its velocity and
    its index among the nodes are assigned, its other properties are not
    touched. *)
Definition relax (bodies : list (R * R * jsnum)) (i : nat) (w : Word) : Word :=
  let '(x', y') := settle env bodies i in
  let '(vx', vy') := velocity env bodies i in
  mkWord (word w) (count w) x' y' (x0 w) (y0 w) (group w) (r w)
         (Some i) (Some vx') (Some vy').

Fixpoint relax_from (bodies : list (R * R * jsnum)) (i : nat) (words : list Word)
    : list Word :=
  match words with
  | [] => []
  | w :: rest => relax bodies i w :: relax_from bodies (S i) rest
  end.

(** [d3.forceSimulation(words)] with the four forces, run for 100 ticks. *)
Definition improveLayout (words : list Word) : list Word :=
  relax_from (List.map body words) 0 words.

(** [rScale] of [visualize], every operation taken exactly. *)
Definition radius_scale (words : list Entry) (minR maxR : R) : jsval -> jsnum :=
  D3.scaleSqrt (D3.domain_of (D3.extent words entry_count)) (minR, maxR).

(** The [forEach] of [visualize], from index [i] on: [xy[i][0]] throws when
    [xy[i]] is [undefined]. *)
Fixpoint place (rScale : jsval -> jsnum) (xy : list (R * R)) (groups : list nat)
    (i : nat) (words : list Entry) : outcome (list Word) :=
  match words with
  | [] => Returns []
  | e :: rest =>
      match nth_error xy i with
      | None => Throws TypeError
      | Some (px, py) =>
          ws <- place rScale xy groups (S i) rest ;;
          Returns (mkWord (entry_word e) (entry_count e)
                          (px * 600) (py * 600) (px * 600) (py * 600)
                          (nth_error groups i) (rScale (entry_count e))
                          None None None :: ws)
      end
  end.

Definition visualize (text : string) (numClusters : Z) (minR maxR : R)
    : outcome (list Word) :=
  let words := countWords (tokenize text) in
  let wordVector := inference words in
  xy <- dimensionalityReduction wordVector ;;
  groups <- clustering xy numClusters ;;
  let rScale := radius_scale words minR maxR in
  placed <- place rScale xy groups 0 words ;;
  Returns (improveLayout placed).

End Pipeline.

(** [rScale] of [visualize] in double precision, [rnd] giving the double
    nearest to a real; [radius_scale] is [radius_scale_fl] at exact
    arithmetic. *)
Definition radius_scale_fl (rnd : R -> R) (words : list Entry) (minR maxR : R)
    : jsval -> jsnum :=
  D3.scaleSqrt_fl rnd (D3.domain_of (D3.extent words entry_count)) (minR, maxR).

(** [Math.sqrt] of a count, in double precision. *)
Definition sqrt_fl (rnd : R -> R) (c : nat) : R := rnd (sqrt (INR c)).

(** The position of the count [c] in the domain [[lo, hi]], as [normalize]
    computes it in double precision. *)
Definition position_fl (rnd : R -> R) (lo hi c : nat) : R :=
  rnd (rnd (sqrt_fl rnd c - sqrt_fl rnd lo) / rnd (sqrt_fl rnd hi - sqrt_fl rnd lo))%R.

(** The word the [forEach] of [visualize] makes of entry [e] at index [i]. *)
Definition placed_word (rScale : jsval -> jsnum) (groups : list nat) (i : nat)
    (e : Entry) (px py : R) : Word :=
  mkWord (entry_word e) (entry_count e) (px * 600) (py * 600) (px * 600) (py * 600)
         (nth_error groups i) (rScale (entry_count e)) None None None.

(** ** The Font Fitter *)

Module FontFitter.

Local Open Scope R_scope.

(** The SVG [text] element [optimalFontSize] measures: its content and the
    three attributes the function sets.  The element is attached to the
    document before the loop and detached after it. *)
Record SvgText : Type := mkSvgText {
  textContent : string;
  font_family : string;
  font_weight : string;
  font_size : option R      (* [None]: the attribute is not set *)
}.

(** The attribute value [setAttributeNS] stores for an argument the caller
    may have left out. *)
Definition attribute (v : option string) : string :=
  match v with
  | Some s => s
  | None => "undefined"
  end.

(** [Math.sqrt(width ** 2 + height ** 2) / 2] *)
Definition half_diagonal (box : R * R) : R :=
  sqrt (fst box ^ 2 + snd box ^ 2) / 2.

(** [d <= r]; false when [r] is not a number. *)
Definition fits (d : R) (r : jsnum) : bool :=
  match r with
  | Num v => if Rle_dec d v then true else false
  | _ => false
  end.

Record search : Type := mkSearch { text : SvgText; ok : R; ng : R }.

Definition set_font_size (t : SvgText) (m : R) : SvgText :=
  mkSvgText (textContent t) (font_family t) (font_weight t) (Some m).

Section Fit.

(** The rendering capability: [text.getBBox()] as [(width, height)]. *)
Variable getBBox : SvgText -> R * R.

(** One round of the loop. *)
Definition round (r : jsnum) (st : search) : search :=
  let m := (ok st + ng st) / 2 in
  let text' := set_font_size (text st) m in
  let d := half_diagonal (getBBox text') in
  if fits d r then mkSearch text' m (ng st) else mkSearch text' (ok st) m.

Definition measured (word : string) (fontFamily fontWeight : option string)
    : SvgText :=
  mkSvgText word (attribute fontFamily) (attribute fontWeight) None.

Definition fit (word : string) (r : jsnum) (fontFamily fontWeight : option string)
    : search :=
  Nat.iter 10 (round r) (mkSearch (measured word fontFamily fontWeight) 0 100).

Definition optimalFontSize (word : string) (r : jsnum)
    (fontFamily fontWeight : option string) : R :=
  ok (fit word r fontFamily fontWeight).



(** Half the diagonal of the box of the measured element at font size [m]. *)
Definition measured_at (t : SvgText) (m : R) : R :=
  half_diagonal (getBBox (set_font_size t m)).

(** The bracket of the search after [n] rounds: it lies in [0, 100], is
    100 / 2^n wide, the text fits at its lower end and, unless the upper end
    is still 100, does not fit there. *)
Record bracket (t : SvgText) (rv : R) (n : nat) (st : search) : Prop := mkBracket {
  bracket_low : 0 <= ok st;
  bracket_order : ok st <= ng st;
  bracket_high : ng st <= 100;
  bracket_width : ng st - ok st = 100 / 2 ^ n;
  bracket_ok : measured_at t (ok st) <= rv;
  bracket_ng : ng st = 100 \/ rv < measured_at t (ng st)
}.


End Fit.

End FontFitter.

(** ** The entry of skmeans *)

(** The pipeline calls [skmeans(data, k)] with no initial centroids.  This
    is the library's entry up to the end of its default initialisation:
    [data[0].length] is read first, then indices
    [Math.floor(Math.random() * len)] are drawn until [k] distinct rows are
    chosen as centroids.  What follows (the assignment rounds) is [lloyd]. *)
Module SkmeansLib.

Section Entry.

(** The value of [Math.random()] scaled to an index, at each draw. *)
Variable draw : nat -> nat.

(** The rounds after the initialisation, from the data and the centroids. *)
Variable lloyd : list (R * R) -> list (R * R) -> outcome (list nat).

Definition pick (len n : nat) (chosen : list nat) : list nat :=
  let idx := draw n mod len in
  if existsb (Nat.eqb idx) chosen then chosen else chosen ++ [idx].

(** [while (ks.length < k)], for at most [fuel] draws; [chosen] holds the
    indices of the rows in [ks]. *)
Fixpoint choose (fuel n len : nat) (k : Z) (chosen : list nat) : option (list nat) :=
  if (Z.of_nat (List.length chosen) <? k)%Z then
    match fuel with
    | O => None
    | S fuel' => choose fuel' (S n) len k (pick len n chosen)
    end
  else Some chosen.

(** [Hangs] stands for an initialisation still running after [fuel] draws. *)
Definition skmeans (fuel : nat) (data : list (R * R)) (k : Z) : outcome (list nat) :=
  match data with
  | [] => Throws TypeError
  | _ :: _ =>
      match choose fuel 0 (List.length data) k [] with
      | None => Hangs
      | Some chosen =>
          lloyd data (List.map (fun i => nth i data (0%R, 0%R)) chosen)
      end
  end.

End Entry.

End SkmeansLib.

(** ** A small instance of the environment *)

(** A tokenizer that reads a non-empty text as one word and the empty text
    as no word, a vocabulary and weights for two words, a reducer that
    returns one row per vector, the entry of skmeans above, and a
    simulation that leaves every node where it is, at rest. *)
Module Sample.

Definition sample_vocabulary : gmap string nat :=
  <["neko" := 0]> (<["inu" := 1]> ∅).

Definition sample_weight : list (list R) := [[1%R; 2%R]; [3%R; 4%R]].

Definition stay (bodies : list (R * R * jsnum)) (i : nat) : R * R :=
  match nth_error bodies i with
  | Some (px, py, _) => (px, py)
  | None => (0%R, 0%R)
  end.

Definition at_rest (bodies : list (R * R * jsnum)) (i : nat) : R * R := (0%R, 0%R).

Definition sample_env (draw : nat -> nat)
    (lloyd : list (R * R) -> list (R * R) -> outcome (list nat)) (fuel : nat) : Env :=
  mkEnv (fun text => if String.eqb text "" then [] else [text])
        sample_vocabulary sample_weight
        (fun vectors => Returns (List.map (fun _ => (0%R, 0%R)) vectors))
        (SkmeansLib.skmeans draw lloyd fuel)
        stay at_rest.

(** Every point in cluster 0. *)
Definition one_cluster (data centroids : list (R * R)) : outcome (list nat) :=
  Returns (List.map (fun _ => 0) data).

(** A renderer whose box is 6 by 8 at every font size (say, a fixed
    padding around an empty glyph run). *)
Definition padded_box (t : FontFitter.SvgText) : R * R := (6%R, 8%R).

(** A renderer whose box is three font sizes wide and one high. *)
Definition glyph_box (t : FontFitter.SvgText) : R * R :=
  match FontFitter.font_size t with
  | Some m => ((3 * m)%R, m)
  | None => (0%R, 0%R)
  end.

End Sample.

(** A run that has not returned whatever is drawn and however long it is
    left running. *)
Definition never_returns {A : Type} (run : (nat -> nat) -> nat -> outcome A) : Prop :=
  forall draw fuel, run draw fuel = Hangs.

(** ** The Frequency Counter on every input *)

(** What [countWords] stores for the word [w] after reading [p]: a number
    for a word the object does not inherit, and for a name of
    [Object.prototype] the string that grew from the inherited member. *)
Definition count_value (w : string) (p : list string) : jsval :=
  if inherited w then JStr w (occurrences w p) else JNum (occurrences w p).

(** The words that become own properties of [count]: every distinct word
    but [__proto__], whose assignment is swallowed by the setter. *)
Definition own_words (p : list string) : list string :=
  List.filter (fun w => negb (String.eqb w "__proto__")) (distinct p).

Definition counted_any (p : list string) : props :=
  List.map (fun w => (w, count_value w p)) (own_words p).

(** ** Environments whose libraries return short results *)

Module Edge.

(** A tokenizer that reads the text as one word; a reducer that returns no
    row and a clusterer that returns no id. *)
Definition rowless_env : Env :=
  mkEnv (fun text => [text]) Sample.sample_vocabulary Sample.sample_weight
        (fun _ => Returns []) (fun _ _ => Returns []) Sample.stay Sample.at_rest.

(** The same with a reducer that returns one row per vector. *)
Definition idless_env : Env :=
  mkEnv (fun text => [text]) Sample.sample_vocabulary Sample.sample_weight
        (fun vectors => Returns (List.map (fun _ => (1%R, 2%R)) vectors))
        (fun _ _ => Returns []) Sample.stay Sample.at_rest.

End Edge.

(** ** The scale of [Chart] *)

Module ChartLayout.

Local Open Scope R_scope.

(** JavaScript numbers with the infinities: [Math.min()] of no argument is
    [Infinity], [Math.max()] of none is [-Infinity], and a division by zero
    yields an infinity.  The differences, the sums and the quotient below
    are taken exactly, where the code rounds each to the nearest double;
    what decides whether a result is [NaN] is the same in both. *)
Inductive xnum : Type :=
| Fin (v : R)
| PosInf
| NegInf
| XNaN.

Definition of_jsnum (a : jsnum) : xnum :=
  match a with
  | Num v => Fin v
  | NaN | Undefined => XNaN
  end.

(** [a <= b]; false when either is [NaN]. *)
Definition xle (a b : xnum) : bool :=
  match a, b with
  | XNaN, _ | _, XNaN => false
  | NegInf, _ => true
  | _, PosInf => true
  | Fin u, Fin v => if Rle_dec u v then true else false
  | _, _ => false
  end.

Definition min2 (a b : xnum) : xnum :=
  match a, b with
  | XNaN, _ | _, XNaN => XNaN
  | _, _ => if xle a b then a else b
  end.

Definition max2 (a b : xnum) : xnum :=
  match a, b with
  | XNaN, _ | _, XNaN => XNaN
  | _, _ => if xle a b then b else a
  end.

(** [Math.min(...l)] and [Math.max(...l)]: [NaN] as soon as an argument is. *)
Definition Math_min (l : list xnum) : xnum := fold_left min2 l PosInf.
Definition Math_max (l : list xnum) : xnum := fold_left max2 l NegInf.

Definition Math_abs (a : xnum) : xnum :=
  match a with
  | Fin v => Fin (Rabs v)
  | PosInf | NegInf => PosInf
  | XNaN => XNaN
  end.

(** [contentSize / 2 / m] with [contentSize = 600], for an [m] that is a
    maximum of absolute values (so that a zero is the positive zero). *)
Definition half_content_over (m : xnum) : xnum :=
  match m with
  | Fin v => if Req_dec_T v 0 then PosInf else Fin (600 / 2 / v)
  | PosInf | NegInf => Fin 0
  | XNaN => XNaN
  end.

(** [x - r] and [x + r] of a Word. *)
Definition minus_r (c : Word -> R) (w : Word) : xnum :=
  of_jsnum (lift2 Rminus (Num (c w)) (r w)).
Definition plus_r (c : Word -> R) (w : Word) : xnum :=
  of_jsnum (lift2 Rplus (Num (c w)) (r w)).

(** [scale] of [Chart]. *)
Definition Chart_scale (words : list Word) : xnum :=
  half_content_over
    (Math_max
       [ Math_abs (Math_min (List.map (minus_r x) words));
         Math_abs (Math_max (List.map (plus_r x) words));
         Math_abs (Math_min (List.map (minus_r y) words));
         Math_abs (Math_max (List.map (plus_r y) words)) ]).

End ChartLayout.

(** * Properties *)

(** ** The Frequency Counter ([countWords]) *)

Section FrequencyCounter.

Implicit Types (w x : string) (p l ks : list string) (o : props).

Lemma distinct_In x l : In x (distinct l) <-> In x l.
Proof.
  induction l as [|y t IH]; simpl; [tauto|].
  rewrite filter_In, IH, negb_true_iff, String.eqb_neq.
  destruct (string_dec y x) as [->|Hne]; [tauto|].
  split; [tauto|]. intros [?|?]; [tauto|]. right. split; congruence.
Qed.

Lemma distinct_NoDup l : List.NoDup (distinct l).
Proof.
  induction l as [|y t IH]; simpl; constructor.
  - rewrite filter_In, negb_true_iff, String.eqb_neq. tauto.
  - now apply List.NoDup_filter.
Qed.

Lemma filter_ne_id x ks :
  ~ In x ks -> List.filter (fun y => negb (String.eqb y x)) ks = ks.
Proof.
  induction ks as [|k ks IH]; simpl; intros Hn; [reflexivity|].
  destruct (String.eqb_spec k x) as [->|Hne]; simpl.
  - tauto.
  - f_equal. apply IH. tauto.
Qed.

Lemma distinct_snoc p w :
  distinct (p ++ [w]) = if in_dec string_dec w p then distinct p else distinct p ++ [w].
Proof.
  induction p as [|x t IH]; simpl; [reflexivity|].
  rewrite IH. destruct (string_dec x w) as [->|Hne].
  - destruct (in_dec string_dec w t); [reflexivity|].
    rewrite List.filter_app; simpl. rewrite String.eqb_refl; simpl.
    now rewrite app_nil_r.
  - destruct (in_dec string_dec w t); [reflexivity|].
    rewrite List.filter_app; simpl.
    destruct (String.eqb_spec w x) as [->|_]; [congruence|reflexivity].
Qed.

Lemma occurrences_snoc x p w :
  occurrences x (p ++ [w]) = occurrences x p + (if String.eqb x w then 1 else 0).
Proof.
  unfold occurrences. rewrite count_occ_app; simpl.
  destruct (string_dec w x) as [->|Hne].
  - now rewrite String.eqb_refl.
  - destruct (String.eqb_spec x w); [congruence|reflexivity].
Qed.

Lemma own_keyed (g : string -> jsval) ks w :
  own (List.map (fun v => (v, g v)) ks) w =
  if in_dec string_dec w ks then Some (g w) else None.
Proof.
  induction ks as [|k ks IH]; simpl; [reflexivity|].
  destruct (String.eqb_spec w k) as [->|Hne].
  - destruct (string_dec k k); [reflexivity|congruence].
  - rewrite IH. destruct (string_dec k w); [congruence|].
    destruct (in_dec string_dec w ks); reflexivity.
Qed.

Lemma put_fresh (g : string -> jsval) ks w v :
  ~ In w ks ->
  put (List.map (fun k => (k, g k)) ks) w v = List.map (fun k => (k, g k)) ks ++ [(w, v)].
Proof.
  induction ks as [|k ks IH]; simpl; intros Hn; [reflexivity|].
  destruct (String.eqb_spec w k) as [->|Hne]; [tauto|].
  f_equal. apply IH. tauto.
Qed.

Lemma put_present (g g' : string -> jsval) ks w :
  List.NoDup ks -> In w ks ->
  (forall k, k <> w -> g' k = g k) ->
  put (List.map (fun k => (k, g k)) ks) w (g' w) = List.map (fun k => (k, g' k)) ks.
Proof.
  intros Hnd Hin Hg. induction Hnd as [|k ks Hk Hnd IH]; simpl; [destruct Hin|].
  destruct (String.eqb_spec w k) as [->|Hne].
  - f_equal. apply map_ext_in. intros a Ha. f_equal. symmetry. apply Hg.
    intros ->. tauto.
  - rewrite (Hg k) by congruence. f_equal. apply IH. destruct Hin; congruence.
Qed.

Lemma uninherited_not_proto w : inherited w = false -> String.eqb w "__proto__" = false.
Proof.
  intros Hi.
  destruct (String.eqb_spec w "__proto__") as [->|]; [discriminate Hi|reflexivity].
Qed.

Lemma count_step_counted p w :
  inherited w = false -> count_step (counted p) w = counted (p ++ [w]).
Proof.
  intros Hinh. pose proof (uninherited_not_proto w Hinh) as Hp.
  unfold count_step, has_property, get, set, counted.
  rewrite Hp, distinct_snoc, own_keyed.
  destruct (in_dec string_dec w (distinct p)) as [Hd|Hd];
    destruct (in_dec string_dec w p) as [Hin|Hin];
    try (rewrite distinct_In in Hd; tauto).
  - rewrite own_keyed. destruct (in_dec string_dec w (distinct p)); [|tauto].
    simpl. replace (JNum (occurrences w p + 1)) with (JNum (occurrences w (p ++ [w]))).
    + apply (put_present (fun k => JNum (occurrences k p))
                         (fun k => JNum (occurrences k (p ++ [w])))).
      * apply distinct_NoDup.
      * assumption.
      * intros k Hk. rewrite occurrences_snoc.
        destruct (String.eqb_spec k w); [congruence|]. f_equal. lia.
    + rewrite occurrences_snoc, String.eqb_refl. reflexivity.
  - rewrite Hinh.
    rewrite (put_fresh (fun k => JNum (occurrences k p))) by assumption.
    assert (Hown : own (List.map (fun k => (k, JNum (occurrences k p))) (distinct p) ++ [(w, JNum 0)]) w
                   = Some (JNum 0)).
    { clear -Hd. induction (distinct p) as [|k ks IH]; simpl.
      - now rewrite String.eqb_refl.
      - destruct (String.eqb_spec w k) as [->|]; [simpl in Hd; tauto|].
        apply IH. simpl in Hd. tauto. }
    rewrite Hown. simpl.
    rewrite map_app. simpl.
    assert (Hput : forall l0 : props, own l0 w = None ->
               put (l0 ++ [(w, JNum 0)]) w (JNum 1) = l0 ++ [(w, JNum 1)]).
    { induction l0 as [|[k v] l0 IH]; simpl.
      - now rewrite String.eqb_refl.
      - destruct (String.eqb_spec w k); [discriminate|]. intros H. now rewrite IH. }
    rewrite Hput.
    + f_equal.
      * apply map_ext_in. intros k Hk. rewrite occurrences_snoc.
        destruct (String.eqb_spec k w) as [->|]; [tauto|]. f_equal. f_equal. lia.
      * rewrite occurrences_snoc, String.eqb_refl.
        unfold occurrences. rewrite (proj1 (count_occ_not_In string_dec p w)) by assumption.
        reflexivity.
    + rewrite own_keyed. destruct (in_dec string_dec w (distinct p)); [tauto|reflexivity].
Qed.

Lemma count_loop_counted l p :
  Forall (fun w => inherited w = false) l ->
  fold_left count_step l (counted p) = counted (p ++ l).
Proof.
  revert p. induction l as [|w l IH]; intros p Hl; simpl.
  - now rewrite app_nil_r.
  - inversion Hl as [|? ? Hw Hl']; subst.
    rewrite count_step_counted by assumption.
    rewrite IH by assumption. now rewrite <- app_assoc.
Qed.

(** [Object.entries] lists the keys in [key_order]. *)
Lemma insert_by_index_keyed (g : string -> jsval) i k (l : list (N * string)) :
  insert_by_index i (k, g k) (List.map (fun '(j, k') => (j, (k', g k'))) l) =
  List.map (fun '(j, k') => (j, (k', g k'))) (insert_key i k l).
Proof.
  induction l as [|[j k'] l IH]; simpl; [reflexivity|].
  destruct (i <=? j)%N; simpl; [reflexivity|]. now rewrite IH.
Qed.

Lemma index_props_keyed (g : string -> jsval) ks :
  index_props (List.map (fun k => (k, g k)) ks) =
  List.map (fun '(j, k') => (j, (k', g k'))) (index_keys ks).
Proof.
  induction ks as [|k ks IH]; simpl; [reflexivity|].
  destruct (array_index k); [|exact IH].
  rewrite IH. apply insert_by_index_keyed.
Qed.

Lemma string_props_keyed (g : string -> jsval) ks :
  string_props (List.map (fun k => (k, g k)) ks) =
  List.map (fun k => (k, g k)) (string_keys ks).
Proof.
  unfold string_keys. induction ks as [|k ks IH]; simpl; [reflexivity|].
  destruct (array_index k); simpl; now rewrite IH.
Qed.

Lemma Object_entries_keyed (g : string -> jsval) ks :
  Object_entries (List.map (fun k => (k, g k)) ks) =
  List.map (fun k => (k, g k)) (key_order ks).
Proof.
  unfold Object_entries, key_order.
  rewrite index_props_keyed, string_props_keyed, !map_app, !map_map.
  f_equal. apply map_ext. now intros [j k].
Qed.

Lemma insert_key_perm i k (l : list (N * string)) :
  Permutation (List.map snd (insert_key i k l)) (k :: List.map snd l).
Proof.
  induction l as [|[j k'] l IH]; simpl; [reflexivity|].
  destruct (i <=? j)%N; simpl; [reflexivity|].
  rewrite IH. apply perm_swap.
Qed.

(** [key_order] rearranges the keys and loses none. *)
Lemma key_order_perm ks : Permutation (key_order ks) ks.
Proof.
  unfold key_order, string_keys. induction ks as [|k ks IH]; simpl; [reflexivity|].
  destruct (array_index k); simpl.
  - rewrite insert_key_perm. simpl. now constructor.
  - rewrite <- Permutation_middle. now constructor.
Qed.

Lemma index_keys_strings ks :
  Forall (fun w => array_index w = None) ks -> index_keys ks = [].
Proof.
  induction 1 as [|k ks Hk _ IH]; simpl; [reflexivity|]. now rewrite Hk.
Qed.

Lemma string_keys_strings ks :
  Forall (fun w => array_index w = None) ks -> string_keys ks = ks.
Proof.
  unfold string_keys. induction 1 as [|k ks Hk _ IH]; simpl; [reflexivity|].
  rewrite Hk. now f_equal.
Qed.

Lemma key_order_strings ks :
  Forall (fun w => array_index w = None) ks -> key_order ks = ks.
Proof.
  intros Hks. unfold key_order.
  now rewrite index_keys_strings, string_keys_strings.
Qed.

Lemma insert_key_sorted i k (l : list (N * string)) :
  StronglySorted N.le (List.map fst l) ->
  StronglySorted N.le (List.map fst (insert_key i k l)).
Proof.
  induction l as [|[j k'] l IH]; simpl; intros Hs.
  - repeat constructor.
  - inversion Hs as [|? ? Hs' Hall]; subst.
    destruct (N.leb_spec i j) as [Hle|Hgt]; simpl.
    + constructor; [exact Hs|]. constructor; [exact Hle|].
      eapply List.Forall_impl; [|exact Hall]. intros a Ha. simpl in Ha. lia.
    + constructor; [now apply IH|].
      assert (Hp : Permutation (List.map fst (insert_key i k l)) (i :: List.map fst l)).
      { clear. induction l as [|[j' k''] l IH]; simpl; [reflexivity|].
        destruct (i <=? j')%N; simpl; [reflexivity|]. rewrite IH. apply perm_swap. }
      eapply Permutation_Forall; [symmetry; exact Hp|].
      constructor; [lia|exact Hall].
Qed.

(** The array indices among the keys are listed in ascending order, each
    with the key that spells it. *)
Lemma index_keys_sorted ks :
  StronglySorted N.le (List.map fst (index_keys ks)) /\
  Forall (fun '(i, k) => array_index k = Some i) (index_keys ks).
Proof.
  induction ks as [|k ks [IHs IHf]]; simpl; [split; constructor|].
  destruct (array_index k) as [i|] eqn:Hk; [|tauto].
  split; [now apply insert_key_sorted|].
  clear IHs. induction (index_keys ks) as [|[j k'] l IH]; simpl.
  - repeat constructor. exact Hk.
  - inversion IHf; subst. destruct (i <=? j)%N; constructor; auto.
Qed.

Lemma distinct_forall (P : string -> Prop) l :
  Forall P l -> Forall P (distinct l).
Proof.
  intros Hl. apply List.Forall_forall. intros x Hx.
  rewrite distinct_In in Hx. exact (proj1 (List.Forall_forall _ l) Hl x Hx).
Qed.

Lemma countWords_key_order words :
  Forall (fun w => inherited w = false) words ->
  countWords words =
  List.map (fun w => mkEntry w (JNum (occurrences w words))) (key_order (distinct words)).
Proof.
  intros Hw. unfold countWords.
  change (@nil (string * jsval)) with (counted []).
  rewrite count_loop_counted by assumption. simpl. unfold counted.
  rewrite Object_entries_keyed. now rewrite map_map.
Qed.

End FrequencyCounter.

(** The example of the design document. *)
Example countWords_example :
  countWords ["a"; "b"; "a"; "c"; "b"; "a"] =
  [mkEntry "a" (JNum 3); mkEntry "b" (JNum 2); mkEntry "c" (JNum 1)].
Proof. reflexivity. Qed.

(** C2, as amended: for every finite sequence of words (with duplicates)
    none of which names a member of Object.prototype, [countWords] returns
    exactly one entry per distinct word, whose count is the number of
    occurrences of the word in the input; the words that are array indices
    (canonical decimal numerals such as 7 or 2020) come first, in ascending
    numeric order, and the other words follow in first-occurrence order, so
    that the entries are in first-occurrence order when no word is an
    array index. *)
Theorem countWords_frequency_table (words : list string) :
  Forall (fun w => inherited w = false) words ->
  countWords words =
    List.map (fun w => mkEntry w (JNum (occurrences w words)))
             (List.map snd (index_keys (distinct words)) ++ string_keys (distinct words)) /\
  StronglySorted N.le (List.map fst (index_keys (distinct words))) /\
  Forall (fun '(i, k) => array_index k = Some i) (index_keys (distinct words)) /\
  Permutation (countWords words) (frequency_table words) /\
  (Forall (fun w => array_index w = None) words ->
   countWords words = frequency_table words).
Proof.
  intros Hw. pose proof (countWords_key_order words Hw) as Hc.
  split; [exact Hc|].
  split; [apply index_keys_sorted|]. split; [apply index_keys_sorted|].
  split.
  - rewrite Hc. unfold frequency_table. apply Permutation_map, key_order_perm.
  - intros Hs. rewrite Hc. unfold frequency_table.
    now rewrite key_order_strings by now apply distinct_forall.
Qed.

Lemma countWords_frequency_table_witness :
  Forall (fun w => inherited w = false) ["a"; "b"; "a"; "c"; "b"; "a"] /\
  countWords ["a"; "b"; "a"; "c"; "b"; "a"] =
  [mkEntry "a" (JNum 3); mkEntry "b" (JNum 2); mkEntry "c" (JNum 1)].
Proof.
  assert (H : Forall (fun w => inherited w = false) ["a"; "b"; "a"; "c"; "b"; "a"])
    by (repeat constructor).
  split; [exact H|].
  exact (proj1 (countWords_frequency_table ["a"; "b"; "a"; "c"; "b"; "a"] H)).
Defined.

(** C2, as stated, fails: an array-index word is listed before every other
    word whatever the order of first occurrence. *)
Lemma countWords_index_first :
  countWords ["b"; "1"] = [mkEntry "1" (JNum 1); mkEntry "b" (JNum 1)] /\
  frequency_table ["b"; "1"] = [mkEntry "b" (JNum 1); mkEntry "1" (JNum 1)] /\
  countWords ["b"; "1"] <> frequency_table ["b"; "1"].
Proof. repeat split. discriminate. Qed.

(** A word that names a member of [Object.prototype] is found by [in]
    before it was ever counted: its count is a string, and [__proto__] is
    not listed at all. *)
Example countWords_inherited :
  countWords ["toString"; "a"; "toString"; "__proto__"] =
  [mkEntry "toString" (JStr "toString" 2); mkEntry "a" (JNum 1)].
Proof. reflexivity. Qed.

(** ** The pipeline ([visualize]) *)

Section PipelineFacts.

Variable env : Env.

Lemma relax_frame bodies i w :
  word (relax env bodies i w) = word w /\
  count (relax env bodies i w) = count w /\
  x0 (relax env bodies i w) = x0 w /\
  y0 (relax env bodies i w) = y0 w /\
  group (relax env bodies i w) = group w /\
  r (relax env bodies i w) = r w /\
  (x (relax env bodies i w), y (relax env bodies i w)) = settle env bodies i.
Proof.
  unfold relax. destruct (settle env bodies i) as [x' y'].
  destruct (velocity env bodies i) as [vx' vy']. simpl. tauto.
Qed.

Lemma relax_from_length bodies i words :
  List.length (relax_from env bodies i words) = List.length words.
Proof.
  revert i. induction words as [|w rest IH]; intros i; simpl; [reflexivity|].
  now rewrite IH.
Qed.

Lemma relax_from_nth bodies i words j :
  nth_error (relax_from env bodies i words) j =
  option_map (relax env bodies (i + j)) (nth_error words j).
Proof.
  revert i j. induction words as [|w rest IH]; intros i j; simpl.
  - now destruct j.
  - destruct j as [|j]; simpl.
    + now rewrite Nat.add_0_r.
    + rewrite IH. now replace (S i + j) with (i + S j) by lia.
Qed.

Lemma improveLayout_nth words i w :
  nth_error words i = Some w ->
  nth_error (improveLayout env words) i = Some (relax env (List.map body words) i w).
Proof.
  intros Hw. unfold improveLayout. now rewrite relax_from_nth, Hw.
Qed.

Lemma place_returns rScale xy groups words i :
  i + List.length words <= List.length xy ->
  exists placed,
    place rScale xy groups i words = Returns placed /\
    List.length placed = List.length words /\
    forall j e, nth_error words j = Some e ->
      exists px py,
        nth_error xy (i + j) = Some (px, py) /\
        nth_error placed j = Some (placed_word rScale groups (i + j) e px py).
Proof.
  revert i. induction words as [|e rest IH]; intros i Hlen; simpl in *.
  - exists []. repeat split. intros [|j] e0; discriminate.
  - destruct (nth_error xy i) as [[px py]|] eqn:Hxy.
    + destruct (IH (S i)) as (ws & -> & Hl & Hnth); [lia|].
      simpl. eexists. split; [reflexivity|]. split; [simpl; lia|].
      intros [|j] e0 He0; simpl in *.
      * injection He0 as <-. exists px, py. now rewrite Nat.add_0_r.
      * destruct (Hnth j e0 He0) as (qx & qy & Hq & Hw).
        exists qx, qy. now replace (i + S j) with (S i + j) by lia.
    + apply nth_error_None in Hxy. lia.
Qed.

Lemma place_throws rScale xy groups words i :
  i <= List.length xy ->
  List.length xy < i + List.length words ->
  place rScale xy groups i words = Throws TypeError.
Proof.
  revert i. induction words as [|e rest IH]; intros i Hi Hlen; simpl in *; [lia|].
  destruct (nth_error xy i) as [[px py]|] eqn:Hxy; [|reflexivity].
  assert (i < List.length xy) by (apply nth_error_Some; congruence).
  rewrite IH; [reflexivity|lia|lia].
Qed.

End PipelineFacts.

(** C1: when the reducer returns a projection with a row for every word
    and the clusterer returns an assignment, [visualize] returns one Word
    per entry of the Frequency Counter's output, in the same order; the
    i-th Word received the i-th row of the projection times 600 as its x0,
    y0 and (before the declutterer moved it) x, y, the i-th entry of the
    assignment as its group and the radius scale of its own count as its
    r; after the declutterer the i-th Word still is that word. *)
Theorem visualize_positional (env : Env) (text : string) (numClusters : Z)
    (minR maxR : R) (xy : list (R * R)) (groups : list nat) :
  let words := countWords (tokenize env text) in
  dimensionalityReduction env (inference env words) = Returns xy ->
  clustering env xy numClusters = Returns groups ->
  List.length words <= List.length xy ->
  exists placed result,
    place (radius_scale words minR maxR) xy groups 0 words = Returns placed /\
    visualize env text numClusters minR maxR = Returns result /\
    result = improveLayout env placed /\
    List.length placed = List.length words /\
    List.length result = List.length words /\
    forall i e, nth_error words i = Some e ->
      exists px py p w,
        nth_error xy i = Some (px, py) /\
        nth_error placed i = Some p /\
        nth_error result i = Some w /\
        (word p = entry_word e /\ count p = entry_count e /\
         x p = (px * 600)%R /\ y p = (py * 600)%R /\
         x0 p = (px * 600)%R /\ y0 p = (py * 600)%R /\
         group p = nth_error groups i /\
         r p = radius_scale words minR maxR (entry_count e)) /\
        (word w = entry_word e /\ count w = entry_count e /\
         x0 w = (px * 600)%R /\ y0 w = (py * 600)%R /\
         group w = nth_error groups i /\
         r w = radius_scale words minR maxR (entry_count e) /\
         (x w, y w) = settle env (List.map body placed) i).
Proof.
  intros words Hxy Hgroups Hlen.
  destruct (place_returns (radius_scale words minR maxR) xy groups words 0)
    as (placed & Hplace & Hl & Hnth); [simpl; lia|].
  exists placed, (improveLayout env placed).
  split; [exact Hplace|].
  split.
  { unfold visualize. fold words. rewrite Hxy. simpl. rewrite Hgroups. simpl.
    now rewrite Hplace. }
  split; [reflexivity|]. split; [exact Hl|].
  split. { unfold improveLayout. now rewrite relax_from_length. }
  intros i e He. destruct (Hnth i e He) as (px & py & Hp & Hw).
  simpl in Hp, Hw.
  exists px, py, (placed_word (radius_scale words minR maxR) groups i e px py),
         (relax env (List.map body placed) i
            (placed_word (radius_scale words minR maxR) groups i e px py)).
  split; [exact Hp|]. split; [exact Hw|].
  split; [now apply improveLayout_nth|].
  split; [simpl; tauto|].
  destruct (relax_frame env (List.map body placed) i
              (placed_word (radius_scale words minR maxR) groups i e px py))
    as (H1 & H2 & H3 & H4 & H5 & H6 & H7).
  rewrite H1, H2, H3, H4, H5, H6, H7. simpl. tauto.
Qed.

Lemma visualize_positional_witness :
  exists result,
    visualize (Sample.sample_env (fun _ => 0) Sample.one_cluster 1) "neko" 1 6 30
      = Returns result /\
    List.length result = 1.
Proof.
  destruct (visualize_positional
              (Sample.sample_env (fun _ => 0) Sample.one_cluster 1) "neko" 1 6 30
              [(0%R, 0%R)] [0])
    as (placed & result & _ & Hv & _ & _ & Hl & _).
  - reflexivity.
  - reflexivity.
  - vm_compute. lia.
  - exists result. split; [exact Hv|]. rewrite Hl. reflexivity.
Defined.

(** What the simulation assigns besides the position. *)
Lemma relax_writes (env : Env) bodies i w :
  index (relax env bodies i w) = Some i /\
  vx (relax env bodies i w) = Some (fst (velocity env bodies i)) /\
  vy (relax env bodies i w) = Some (snd (velocity env bodies i)).
Proof.
  unfold relax. destruct (settle env bodies i) as [x' y'].
  destruct (velocity env bodies i) as [vx' vy']. simpl. tauto.
Qed.

Lemma place_unindexed rScale xy groups words : forall i placed,
  place rScale xy groups i words = Returns placed ->
  forall p, In p placed -> index p = None /\ vx p = None /\ vy p = None.
Proof.
  induction words as [|e rest IH]; intros i placed Hp p Hin; simpl in Hp.
  - injection Hp as <-. destruct Hin.
  - destruct (nth_error xy i) as [[px py]|]; [|discriminate].
    destruct (place rScale xy groups (S i) rest) as [ws| |] eqn:Hrest;
      simpl in Hp; try discriminate.
    injection Hp as <-. destruct Hin as [<-|Hin]; [simpl; tauto|].
    exact (IH (S i) ws Hrest p Hin).
Qed.

(** C7, as amended: [improveLayout] keeps the number and order of the
    Words; on each Word it assigns x and y and, besides them, the
    simulation's own index (the position of the Word in the list), vx and
    vy; the fields word, count, x0, y0, group and r are unchanged.  In the
    list [visualize] returns, x0 and y0 of every Word are the x and y the
    Word had before the relaxation, that is the scaled projection
    coordinates, and index, vx and vy, absent before, are set. *)
Theorem improveLayout_frame (env : Env) (words : list Word) :
  List.length (improveLayout env words) = List.length words /\
  (forall i w, nth_error words i = Some w ->
     exists w', nth_error (improveLayout env words) i = Some w' /\
       word w' = word w /\ count w' = count w /\
       x0 w' = x0 w /\ y0 w' = y0 w /\
       group w' = group w /\ r w' = r w /\
       (x w', y w') = settle env (List.map body words) i /\
       index w' = Some i /\
       vx w' = Some (fst (velocity env (List.map body words) i)) /\
       vy w' = Some (snd (velocity env (List.map body words) i))) /\
  (forall text numClusters minR maxR result,
     visualize env text numClusters minR maxR = Returns result ->
     exists xy groups placed,
       dimensionalityReduction env
         (inference env (countWords (tokenize env text))) = Returns xy /\
       place (radius_scale (countWords (tokenize env text)) minR maxR)
             xy groups 0 (countWords (tokenize env text)) = Returns placed /\
       result = improveLayout env placed /\
       forall i w, nth_error result i = Some w ->
         exists p px py, nth_error placed i = Some p /\
           nth_error xy i = Some (px, py) /\
           x0 w = x p /\ y0 w = y p /\
           x0 w = (px * 600)%R /\ y0 w = (py * 600)%R /\
           word w = word p /\ count w = count p /\
           group w = group p /\ r w = r p /\
           index p = None /\ vx p = None /\ vy p = None /\
           index w = Some i /\ vx w <> None /\ vy w <> None).
Proof.
  split; [unfold improveLayout; apply relax_from_length|].
  split.
  - intros i w Hw. exists (relax env (List.map body words) i w).
    split; [apply improveLayout_nth, Hw|].
    destruct (relax_frame env (List.map body words) i w)
      as (H1 & H2 & H3 & H4 & H5 & H6 & H7).
    destruct (relax_writes env (List.map body words) i w) as (H8 & H9 & H10).
    tauto.
  - intros text numClusters minR maxR result Hv. unfold visualize in Hv.
    destruct (dimensionalityReduction env _) as [xy| |] eqn:Hxy; try discriminate.
    simpl in Hv.
    destruct (clustering env xy numClusters) as [groups| |]; try discriminate.
    simpl in Hv.
    destruct (place _ xy groups 0 _) as [placed| |] eqn:Hplace; try discriminate.
    simpl in Hv. injection Hv as <-.
    exists xy, groups, placed.
    split; [reflexivity|]. split; [exact Hplace|]. split; [reflexivity|].
    intros i w Hw.
    assert (Hlen : List.length (countWords (tokenize env text)) <= List.length xy).
    { destruct (le_lt_dec (List.length (countWords (tokenize env text)))
                          (List.length xy)) as [Hle|Hlt]; [exact Hle|].
      rewrite place_throws in Hplace; [discriminate|lia|simpl; lia]. }
    destruct (place_returns (radius_scale (countWords (tokenize env text)) minR maxR)
                xy groups (countWords (tokenize env text)) 0)
      as (placed' & Hplace' & Hl & Hnth); [simpl; lia|].
    rewrite Hplace in Hplace'. injection Hplace' as <-.
    unfold improveLayout in Hw. rewrite relax_from_nth in Hw. simpl in Hw.
    destruct (nth_error placed i) as [p|] eqn:Hp; [|discriminate].
    simpl in Hw. injection Hw as <-.
    assert (Hi : i < List.length (countWords (tokenize env text))).
    { rewrite <- Hl. apply nth_error_Some. congruence. }
    destruct (nth_error (countWords (tokenize env text)) i) as [e|] eqn:He;
      [|apply nth_error_None in He; lia].
    destruct (Hnth i e He) as (px & py & Hq & Hp'). simpl in Hq, Hp'.
    rewrite Hp in Hp'. injection Hp' as ->.
    exists (placed_word (radius_scale (countWords (tokenize env text)) minR maxR)
                        groups i e px py), px, py.
    destruct (relax_frame env (List.map body placed) i
                (placed_word (radius_scale (countWords (tokenize env text)) minR maxR)
                             groups i e px py))
      as (H1 & H2 & H3 & H4 & H5 & H6 & _).
    destruct (relax_writes env (List.map body placed) i
                (placed_word (radius_scale (countWords (tokenize env text)) minR maxR)
                             groups i e px py))
      as (H8 & H9 & H10).
    rewrite H1, H2, H3, H4, H5, H6, H8, H9, H10. simpl.
    repeat split; try reflexivity; try discriminate. exact Hq.
Qed.

(** C7, as stated, fails: [improveLayout] does not mutate x and y only.
    A Word that had no index, vx or vy has all three afterwards. *)
Lemma improveLayout_assigns_velocity :
  improveLayout (Sample.sample_env (fun _ => 0) Sample.one_cluster 1)
    [mkWord "neko" (JNum 1) 0 0 0 0 (Some 0) (Num 6) None None None]
  = [mkWord "neko" (JNum 1) 0 0 0 0 (Some 0) (Num 6)
            (Some 0) (Some 0%R) (Some 0%R)] /\
  index (mkWord "neko" (JNum 1) 0 0 0 0 (Some 0) (Num 6) None None None)
    <> index (mkWord "neko" (JNum 1) 0 0 0 0 (Some 0) (Num 6)
                     (Some 0) (Some 0%R) (Some 0%R)) /\
  vx (mkWord "neko" (JNum 1) 0 0 0 0 (Some 0) (Num 6) None None None)
    <> vx (mkWord "neko" (JNum 1) 0 0 0 0 (Some 0) (Num 6)
                  (Some 0) (Some 0%R) (Some 0%R)).
Proof. split; [reflexivity|]. split; discriminate. Qed.

(** ** Embedding Lookup ([inference]) *)

(** C4, as amended: [inference] reports no error.  It returns one entry
    per Word, in order, the row of the weights at the word's vocabulary
    index; the entry of a word that is absent from the vocabulary index is
    [undefined], and the word is not dropped. *)
Theorem inference_absent_word (env : Env) (words : list Entry) :
  List.length (inference env words) = List.length words /\
  forall i e, nth_error words i = Some e ->
    nth_error (inference env words) i = Some (embedding env (entry_word e)) /\
    (vocabulary env !! entry_word e = None ->
     nth_error (inference env words) i = Some None).
Proof.
  unfold inference. split; [apply length_map|].
  intros i e He.
  assert (Hn : nth_error (List.map (fun e0 => embedding env (entry_word e0)) words) i
               = Some (embedding env (entry_word e))).
  { rewrite nth_error_map, He. reflexivity. }
  split; [exact Hn|].
  intros Habs. rewrite Hn. unfold embedding. now rewrite Habs.
Qed.

(** C4, as stated, fails: a word absent from the vocabulary gets the
    vector [undefined] and no error is reported. *)
Lemma inference_silent_undefined :
  Sample.sample_vocabulary !! "tori" = None /\
  inference (Sample.sample_env (fun _ => 0) Sample.one_cluster 0)
            [mkEntry "neko" (JNum 2); mkEntry "tori" (JNum 1)]
  = [Some [1%R; 2%R]; None].
Proof. split; reflexivity. Qed.

(** ** Degenerate inputs *)

(** C5, as amended: for a text with no vocabulary-matched word, frequency
    counting, embedding lookup, the per-word assignment and the layout
    accept the empty list and produce the empty list, and [visualize] calls
    the reducer on the empty matrix and the clusterer on its result without
    a guard of its own: it returns the empty Word list when both calls
    return and fails as they fail otherwise. *)
Theorem visualize_empty (env : Env) (text : string) (numClusters : Z)
    (minR maxR : R) :
  tokenize env text = [] ->
  countWords (tokenize env text) = [] /\
  inference env [] = [] /\
  (forall rScale xy groups, place rScale xy groups 0 [] = Returns []) /\
  improveLayout env [] = [] /\
  visualize env text numClusters minR maxR =
    (xy <- tsne env [] ;; _ <- skmeans env xy numClusters ;; Returns []).
Proof.
  intros Ht. rewrite Ht. repeat split.
  unfold visualize, dimensionalityReduction, clustering. rewrite Ht. simpl.
  destruct (tsne env []) as [xy| |]; simpl; [|reflexivity|reflexivity].
  destruct (skmeans env xy numClusters); reflexivity.
Qed.

Lemma visualize_empty_witness :
  tokenize (Sample.sample_env (fun _ => 0) Sample.one_cluster 0) "" = [] /\
  visualize (Sample.sample_env (fun _ => 0) Sample.one_cluster 0) "" 5 6 30 =
    (xy <- Returns [] ;;
     _ <- SkmeansLib.skmeans (fun _ => 0) Sample.one_cluster 0 xy 5 ;;
     Returns []).
Proof.
  assert (H : tokenize (Sample.sample_env (fun _ => 0) Sample.one_cluster 0) "" = [])
    by reflexivity.
  split; [exact H|].
  exact (proj2 (proj2 (proj2 (proj2
    (visualize_empty (Sample.sample_env (fun _ => 0) Sample.one_cluster 0)
                     "" 5 6 30 H))))).
Defined.

(** C5, as stated, fails: on the empty text the reducer is handed no row,
    and skmeans reads the length of the first row of what it is given. *)
Lemma visualize_empty_throws :
  visualize (Sample.sample_env (fun _ => 0) Sample.one_cluster 0) "" 5 6 30
  = Throws TypeError.
Proof. reflexivity. Qed.

(** ** The clustering count *)

Section SkmeansEntry.

Variable draw : nat -> nat.

Lemma pick_distinct len n chosen :
  0 < len -> List.NoDup chosen -> (forall i, In i chosen -> i < len) ->
  List.NoDup (SkmeansLib.pick draw len n chosen) /\
  (forall i, In i (SkmeansLib.pick draw len n chosen) -> i < len).
Proof.
  intros Hlen Hnd Hlt. unfold SkmeansLib.pick.
  destruct (existsb (Nat.eqb (draw n mod len)) chosen) eqn:Hex; [tauto|].
  split.
  - apply List.NoDup_app; [exact Hnd|constructor; [simpl; tauto|constructor]|].
    intros a Ha [<-|[]].
    assert (existsb (Nat.eqb (draw n mod len)) chosen = true); [|congruence].
    apply existsb_exists. exists (draw n mod len). split; [exact Ha|apply Nat.eqb_refl].
  - intros i Hi. apply in_app_or in Hi as [Hi|[<-|[]]]; [now apply Hlt|].
    apply Nat.mod_upper_bound. lia.
Qed.

Lemma chosen_bounded len chosen :
  List.NoDup chosen -> (forall i, In i chosen -> i < len) ->
  List.length chosen <= len.
Proof.
  intros Hnd Hlt.
  assert (Hle : List.length chosen <= List.length (seq 0 len)).
  { apply List.NoDup_incl_length; [exact Hnd|].
    intros i Hi. apply in_seq. specialize (Hlt i Hi). lia. }
  now rewrite List.length_seq in Hle.
Qed.

(** With fewer rows than centroids asked for, the initialisation of
    skmeans is still drawing after any number of draws. *)
Lemma choose_starved fuel n len k chosen :
  0 < len -> (Z.of_nat len < k)%Z ->
  List.NoDup chosen -> (forall i, In i chosen -> i < len) ->
  SkmeansLib.choose draw fuel n len k chosen = None.
Proof.
  intros Hlen Hk. revert n chosen.
  induction fuel as [|fuel IH]; intros n chosen Hnd Hlt; simpl.
  - pose proof (chosen_bounded len chosen Hnd Hlt) as Hle.
    destruct (Z.ltb_spec (Z.of_nat (List.length chosen)) k); [reflexivity|lia].
  - pose proof (chosen_bounded len chosen Hnd Hlt) as Hle.
    destruct (Z.ltb_spec (Z.of_nat (List.length chosen)) k); [|lia].
    destruct (pick_distinct len n chosen Hlen Hnd Hlt) as [Hnd' Hlt'].
    now apply IH.
Qed.

Lemma skmeans_starved lloyd fuel data k :
  data <> [] -> (Z.of_nat (List.length data) < k)%Z ->
  SkmeansLib.skmeans draw lloyd fuel data k = Hangs.
Proof.
  intros Hd Hk. destruct data as [|p data]; [congruence|].
  unfold SkmeansLib.skmeans. rewrite choose_starved; try easy.
  - simpl. lia.
  - constructor.
Qed.

End SkmeansEntry.

(** C6, as amended: for every clustering count, valid or not, the
    clustering stage applies no policy of its own: it is the call of
    skmeans on the projected points with the count as given, and
    [visualize] has no handler for it.  An exception of that call is the
    exception of [visualize], a call that does not return keeps
    [visualize] from returning, and a returned assignment is used as it
    is. *)
Theorem clustering_unguarded (env : Env) :
  (forall data k, clustering env data k = skmeans env data k) /\
  (forall text k minR maxR xy,
     dimensionalityReduction env
       (inference env (countWords (tokenize env text))) = Returns xy ->
     (forall e, skmeans env xy k = Throws e ->
        visualize env text k minR maxR = Throws e) /\
     (skmeans env xy k = Hangs -> visualize env text k minR maxR = Hangs) /\
     (forall groups, skmeans env xy k = Returns groups ->
        visualize env text k minR maxR =
        (placed <- place (radius_scale (countWords (tokenize env text)) minR maxR)
                         xy groups 0 (countWords (tokenize env text)) ;;
         Returns (improveLayout env placed)))).
Proof.
  split; [reflexivity|].
  intros text k minR maxR xy Hxy. unfold visualize. rewrite Hxy. simpl.
  unfold clustering.
  repeat split; [intros e H|intros H|intros groups H]; now rewrite H.
Qed.

(** C6, as stated, fails: one distinct word and two clusters.  skmeans
    keeps drawing row indices for a second centroid that no row can
    provide. *)
Lemma clustering_count_above_points :
  countWords (tokenize (Sample.sample_env (fun _ => 0) Sample.one_cluster 0) "neko")
    = [mkEntry "neko" (JNum 1)] /\
  never_returns (fun draw fuel =>
    visualize (Sample.sample_env draw Sample.one_cluster fuel) "neko" 2 6 30).
Proof.
  split; [reflexivity|].
  intros draw fuel.
  assert (Hw : countWords (tokenize (Sample.sample_env draw Sample.one_cluster fuel) "neko")
               = [mkEntry "neko" (JNum 1)]) by reflexivity.
  assert (Hxy : dimensionalityReduction (Sample.sample_env draw Sample.one_cluster fuel)
                  (inference (Sample.sample_env draw Sample.one_cluster fuel)
                             [mkEntry "neko" (JNum 1)])
                = Returns [(0%R, 0%R)]) by reflexivity.
  unfold visualize. rewrite Hw, Hxy. unfold clustering, bind at 1.
  change (skmeans (Sample.sample_env draw Sample.one_cluster fuel))
    with (SkmeansLib.skmeans draw Sample.one_cluster fuel).
  rewrite skmeans_starved; [reflexivity|discriminate|simpl; lia].
Qed.

(** ** The Radius Scaler ([rScale]) *)

Section RadiusScaler.

Local Open Scope R_scope.

Lemma extent_from (words : list Entry) : forall (cs : list nat) (lo hi : nat),
  List.map entry_count words = List.map JNum cs -> (lo <= hi)%nat ->
  exists lo' hi',
    fold_left (fun acc e => D3.extent_step acc (entry_count e)) words
              (Some (JNum lo, JNum hi)) = Some (JNum lo', JNum hi') /\
    (lo' <= lo)%nat /\ (hi <= hi')%nat /\
    (forall c, In c cs -> (lo' <= c <= hi')%nat) /\
    In lo' (lo :: cs) /\ In hi' (hi :: cs).
Proof.
  induction words as [|e words IH]; intros cs lo hi Hcs Hle.
  - destruct cs; [|discriminate]. exists lo, hi. simpl. repeat split; auto; tauto.
  - destruct cs as [|c cs]; [discriminate|]. simpl in Hcs.
    injection Hcs as Hc Hcs. simpl. rewrite Hc. simpl.
    destruct (Nat.ltb_spec c lo) as [Hlo|Hlo]; destruct (Nat.ltb_spec hi c) as [Hhi|Hhi].
    + lia.
    + destruct (IH cs c hi Hcs) as (lo' & hi' & -> & H1 & H2 & H3 & H4 & H5); [lia|].
      exists lo', hi'. split; [reflexivity|]. split; [lia|]. split; [lia|].
      split; [intros a [<-|Ha]; [lia|now apply H3]|].
      simpl in *. split; [tauto|]. destruct H5; [tauto|tauto].
    + destruct (IH cs lo c Hcs) as (lo' & hi' & -> & H1 & H2 & H3 & H4 & H5); [lia|].
      exists lo', hi'. split; [reflexivity|]. split; [lia|]. split; [lia|].
      split; [intros a [<-|Ha]; [lia|now apply H3]|].
      simpl in *. split; [tauto|]. destruct H5; [tauto|tauto].
    + destruct (IH cs lo hi Hcs) as (lo' & hi' & -> & H1 & H2 & H3 & H4 & H5); [lia|].
      exists lo', hi'. split; [reflexivity|]. split; [lia|]. split; [lia|].
      split; [intros a [<-|Ha]; [lia|now apply H3]|].
      simpl in *. tauto.
Qed.

(** On numeric counts [d3.extent] returns the least and the greatest. *)
Lemma extent_min_max (words : list Entry) (cs : list nat) (cmin cmax : nat) :
  List.map entry_count words = List.map JNum cs ->
  In cmin cs -> In cmax cs ->
  (forall c, In c cs -> (cmin <= c <= cmax)%nat) ->
  D3.extent words entry_count = Some (JNum cmin, JNum cmax).
Proof.
  intros Hcs Hmin Hmax Hb. unfold D3.extent.
  destruct words as [|e words]; destruct cs as [|c cs]; try discriminate; [destruct Hmin|].
  simpl in Hcs. injection Hcs as Hc Hcs. simpl. rewrite Hc. simpl.
  rewrite Nat.ltb_irrefl. simpl.
  destruct (extent_from words cs c c Hcs) as (lo & hi & -> & H1 & H2 & H3 & H4 & H5);
    [lia|].
  assert (Hlo : lo = cmin).
  { pose proof (Hb lo H4). pose proof (Hb c (or_introl eq_refl)).
    destruct Hmin as [<-|Hmin]; [lia|]. pose proof (H3 cmin Hmin). lia. }
  assert (Hhi : hi = cmax).
  { pose proof (Hb hi H5). pose proof (Hb c (or_introl eq_refl)).
    destruct Hmax as [<-|Hmax]; [lia|]. pose proof (H3 cmax Hmax). lia. }
  now rewrite Hlo, Hhi.
Qed.

Lemma transformSqrt_INR (n : nat) : D3.transformSqrt (INR n) = sqrt (INR n).
Proof.
  unfold D3.transformSqrt. pose proof (pos_INR n).
  destruct (Rlt_dec (INR n) 0); [lra|reflexivity].
Qed.

Lemma sqrt_INR_lt (m n : nat) : (m < n)%nat -> sqrt (INR m) < sqrt (INR n).
Proof.
  intros H. apply sqrt_lt_1_alt. split; [apply pos_INR|now apply lt_INR].
Qed.

(** The scale on a domain of two distinct counts. *)
Lemma scaleSqrt_spread (lo hi c : nat) (minR maxR : R) :
  (lo < hi)%nat ->
  D3.scaleSqrt (Num (INR lo), Num (INR hi)) (minR, maxR) (JNum c) =
  Num (minR + (maxR - minR) *
       ((sqrt (INR c) - sqrt (INR lo)) / (sqrt (INR hi) - sqrt (INR lo)))).
Proof.
  intros Hlt. pose proof (sqrt_INR_lt lo hi Hlt) as Hs.
  unfold D3.scaleSqrt, D3.bimap, D3.num_lt, D3.transform. simpl.
  rewrite !transformSqrt_INR.
  destruct (Rlt_dec (sqrt (INR hi)) (sqrt (INR lo))); [lra|].
  unfold D3.normalize, D3.interpolateNumber. simpl.
  destruct (Req_dec_T (sqrt (INR hi) - sqrt (INR lo)) 0); [lra|].
  simpl. f_equal. field. lra.
Qed.

(** The scale on a domain collapsed to one count. *)
Lemma scaleSqrt_collapsed (c : nat) (minR maxR : R) :
  D3.scaleSqrt (Num (INR c), Num (INR c)) (minR, maxR) (JNum c) =
  Num ((minR + maxR) / 2).
Proof.
  unfold D3.scaleSqrt, D3.bimap, D3.num_lt, D3.transform. simpl.
  rewrite !transformSqrt_INR.
  destruct (Rlt_dec (sqrt (INR c)) (sqrt (INR c))); [lra|].
  unfold D3.normalize, D3.interpolateNumber. simpl.
  destruct (Req_dec_T (sqrt (INR c) - sqrt (INR c)) 0); [|lra].
  simpl. f_equal. lra.
Qed.

Lemma radius_scale_spread (words : list Entry) (cs : list nat) (cmin cmax : nat)
    (minR maxR : R) (c : nat) :
  List.map entry_count words = List.map JNum cs ->
  In cmin cs -> In cmax cs ->
  (forall a, In a cs -> (cmin <= a <= cmax)%nat) ->
  (cmin < cmax)%nat ->
  radius_scale words minR maxR (JNum c) =
  Num (minR + (maxR - minR) *
       ((sqrt (INR c) - sqrt (INR cmin)) / (sqrt (INR cmax) - sqrt (INR cmin)))).
Proof.
  intros Hcs Hmin Hmax Hb Hlt. unfold radius_scale.
  rewrite (extent_min_max words cs cmin cmax Hcs Hmin Hmax Hb). simpl D3.domain_of.
  now apply scaleSqrt_spread.
Qed.

Lemma radius_scale_collapsed (words : list Entry) (c : nat) (minR maxR : R) :
  words <> [] -> (forall e, In e words -> entry_count e = JNum c) ->
  radius_scale words minR maxR (JNum c) = Num ((minR + maxR) / 2).
Proof.
  intros Hne Hall. unfold radius_scale.
  rewrite (extent_min_max words (List.map (fun _ => c) words) c c).
  - simpl D3.domain_of. apply scaleSqrt_collapsed.
  - rewrite map_map. apply map_ext_in. exact Hall.
  - destruct words as [|e words]; [congruence|]. now left.
  - destruct words as [|e words]; [congruence|]. now left.
  - intros a Ha. apply in_map_iff in Ha as (e & <- & _). lia.
Qed.

End RadiusScaler.

(** The exact scale is the scale in double precision without rounding. *)
Lemma radius_scale_exact (words : list Entry) (minR maxR : R) (v : jsval) :
  radius_scale words minR maxR v = radius_scale_fl (fun x => x) words minR maxR v.
Proof. reflexivity. Qed.

Section RadiusScalerDoubles.

Local Open Scope R_scope.

(** The double nearest to a real: exact on 0 and 1 and monotone. *)
Variable rnd : R -> R.
Hypothesis rnd_0 : rnd 0 = 0.
Hypothesis rnd_1 : rnd 1 = 1.
Hypothesis rnd_mono : forall x y, x <= y -> rnd x <= rnd y.

Lemma transformSqrt_fl_INR (n : nat) : D3.transformSqrt_fl rnd (INR n) = sqrt_fl rnd n.
Proof.
  unfold D3.transformSqrt_fl, sqrt_fl. pose proof (pos_INR n).
  destruct (Rlt_dec (INR n) 0); [lra|reflexivity].
Qed.

Lemma sqrt_fl_le (m n : nat) : (m <= n)%nat -> sqrt_fl rnd m <= sqrt_fl rnd n.
Proof.
  intros H. apply rnd_mono, sqrt_le_1_alt, le_INR, H.
Qed.

Lemma spread_pos (lo hi : nat) :
  (lo <= hi)%nat -> rnd (sqrt_fl rnd hi - sqrt_fl rnd lo) <> 0 ->
  0 < rnd (sqrt_fl rnd hi - sqrt_fl rnd lo).
Proof.
  intros Hle Hne. pose proof (sqrt_fl_le lo hi Hle) as Hs.
  assert (H0 : rnd 0 <= rnd (sqrt_fl rnd hi - sqrt_fl rnd lo)) by (apply rnd_mono; lra).
  rewrite rnd_0 in H0. lra.
Qed.

Lemma scaleSqrt_fl_spread (lo hi c : nat) (minR maxR : R) :
  (lo <= hi)%nat -> rnd (sqrt_fl rnd hi - sqrt_fl rnd lo) <> 0 ->
  D3.scaleSqrt_fl rnd (Num (INR lo), Num (INR hi)) (minR, maxR) (JNum c) =
  Num (rnd (rnd (minR * rnd (1 - position_fl rnd lo hi c))
            + rnd (maxR * position_fl rnd lo hi c))).
Proof.
  intros Hle Hne. pose proof (sqrt_fl_le lo hi Hle) as Hs.
  unfold D3.scaleSqrt_fl, D3.bimap_fl, D3.num_lt, D3.transform_fl. simpl.
  rewrite !transformSqrt_fl_INR.
  destruct (Rlt_dec (sqrt_fl rnd hi) (sqrt_fl rnd lo)); [lra|].
  unfold D3.normalize_fl, D3.interpolateNumber_fl. simpl.
  destruct (Req_dec_T (rnd (sqrt_fl rnd hi - sqrt_fl rnd lo)) 0); [contradiction|].
  reflexivity.
Qed.

Lemma position_fl_low (lo hi : nat) : position_fl rnd lo hi lo = 0.
Proof.
  unfold position_fl. rewrite Rminus_diag, rnd_0.
  unfold Rdiv. now rewrite Rmult_0_l, rnd_0.
Qed.

Lemma position_fl_high (lo hi : nat) :
  rnd (sqrt_fl rnd hi - sqrt_fl rnd lo) <> 0 -> position_fl rnd lo hi hi = 1.
Proof.
  intros Hne. unfold position_fl. unfold Rdiv. now rewrite Rinv_r, rnd_1.
Qed.

Lemma position_fl_mono (lo hi c1 c2 : nat) :
  (lo <= hi)%nat -> rnd (sqrt_fl rnd hi - sqrt_fl rnd lo) <> 0 -> (c1 <= c2)%nat ->
  position_fl rnd lo hi c1 <= position_fl rnd lo hi c2.
Proof.
  intros Hle Hne Hc. pose proof (spread_pos lo hi Hle Hne) as Hd.
  pose proof (sqrt_fl_le c1 c2 Hc) as Hs.
  unfold position_fl. apply rnd_mono.
  apply Rmult_le_compat_r; [apply Rlt_le, Rinv_0_lt_compat, Hd|].
  apply rnd_mono. lra.
Qed.

Lemma radius_scale_fl_spread (words : list Entry) (cs : list nat) (cmin cmax : nat)
    (minR maxR : R) (c : nat) :
  List.map entry_count words = List.map JNum cs ->
  In cmin cs -> In cmax cs ->
  (forall a, In a cs -> (cmin <= a <= cmax)%nat) ->
  rnd (sqrt_fl rnd cmax - sqrt_fl rnd cmin) <> 0 ->
  radius_scale_fl rnd words minR maxR (JNum c) =
  Num (rnd (rnd (minR * rnd (1 - position_fl rnd cmin cmax c))
            + rnd (maxR * position_fl rnd cmin cmax c))).
Proof.
  intros Hcs Hmin Hmax Hb Hne. unfold radius_scale_fl.
  rewrite (extent_min_max words cs cmin cmax Hcs Hmin Hmax Hb). simpl D3.domain_of.
  apply scaleSqrt_fl_spread; [|exact Hne]. apply (Hb cmax Hmax).
Qed.

End RadiusScalerDoubles.

(** C3, as amended: take the arithmetic of the code, in which every
    operation returns the double nearest to its exact result ([rnd]: exact
    on 0 and 1 and on the doubles minR and maxR, and monotone).  For every
    Word list whose minimum count cmin is strictly less than its maximum
    count cmax, the two having different square roots as doubles, the
    radius of a word with count c is minR * (1 - t) + maxR * t computed in
    doubles, where t = (sqrt c - sqrt cmin) / (sqrt cmax - sqrt cmin)
    computed in doubles; t is 0 at cmin, 1 at cmax and never decreases
    when the count grows; words with the minimum count get exactly minR,
    words with the maximum count get exactly maxR, and equal counts get
    equal radii. *)
Theorem radius_scale_law (rnd : R -> R) (words : list Entry) (cs : list nat)
    (cmin cmax : nat) (minR maxR : R) :
  rnd 0%R = 0%R -> rnd 1%R = 1%R ->
  (forall x y : R, (x <= y)%R -> (rnd x <= rnd y)%R) ->
  rnd minR = minR -> rnd maxR = maxR ->
  List.map entry_count words = List.map JNum cs ->
  In cmin cs -> In cmax cs ->
  (forall a, In a cs -> cmin <= a <= cmax) ->
  cmin < cmax ->
  rnd (sqrt_fl rnd cmax - sqrt_fl rnd cmin)%R <> 0%R ->
  let t := position_fl rnd cmin cmax in
  (forall c, radius_scale_fl rnd words minR maxR (JNum c) =
             Num (rnd (rnd (minR * rnd (1 - t c)) + rnd (maxR * t c)))%R) /\
  (forall c, t c =
     rnd (rnd (rnd (sqrt (INR c)) - rnd (sqrt (INR cmin)))
          / rnd (rnd (sqrt (INR cmax)) - rnd (sqrt (INR cmin))))%R) /\
  t cmin = 0%R /\ t cmax = 1%R /\
  (forall c1 c2, c1 <= c2 -> (t c1 <= t c2)%R) /\
  radius_scale_fl rnd words minR maxR (JNum cmin) = Num minR /\
  radius_scale_fl rnd words minR maxR (JNum cmax) = Num maxR /\
  (forall c1 c2, c1 = c2 ->
     radius_scale_fl rnd words minR maxR (JNum c1) =
     radius_scale_fl rnd words minR maxR (JNum c2)).
Proof.
  intros H0 H1 Hmono HminR HmaxR Hcs Hmin Hmax Hb Hlt Hne t.
  assert (Hr : forall c, radius_scale_fl rnd words minR maxR (JNum c) =
                 Num (rnd (rnd (minR * rnd (1 - t c)) + rnd (maxR * t c)))%R)
    by (intros c; now apply (radius_scale_fl_spread rnd Hmono words cs)).
  assert (Hlow : t cmin = 0%R) by (apply position_fl_low; assumption).
  assert (Hhigh : t cmax = 1%R) by (apply position_fl_high; assumption).
  split; [exact Hr|]. split; [reflexivity|].
  split; [exact Hlow|]. split; [exact Hhigh|].
  split; [intros c1 c2 Hc; apply position_fl_mono; try assumption; lia|].
  split; [|split].
  - rewrite Hr, Hlow. f_equal.
    rewrite Rminus_0_r, H1, Rmult_1_r, HminR, Rmult_0_r, H0, Rplus_0_r.
    exact HminR.
  - rewrite Hr, Hhigh. f_equal.
    rewrite Rminus_diag, H0, Rmult_0_r, H0, Rmult_1_r, HmaxR, Rplus_0_l.
    exact HmaxR.
  - now intros c1 c2 ->.
Qed.

Lemma radius_scale_law_witness :
  radius_scale_fl (fun x => x)
    [mkEntry "a" (JNum 5); mkEntry "b" (JNum 3); mkEntry "c" (JNum 1)]
    6 30 (JNum 1) = Num 6 /\
  radius_scale_fl (fun x => x)
    [mkEntry "a" (JNum 5); mkEntry "b" (JNum 3); mkEntry "c" (JNum 1)]
    6 30 (JNum 5) = Num 30.
Proof.
  assert (Hb : forall a, In a [5; 3; 1] -> 1 <= a <= 5)
    by (intros a [<-|[<-|[<-|[]]]]; lia).
  assert (Hlt : 1 < 5) by lia.
  assert (Hne : ((fun x : R => x) (sqrt_fl (fun x => x) 5 - sqrt_fl (fun x => x) 1) <> 0)%R).
  { unfold sqrt_fl. pose proof (sqrt_INR_lt 1 5 Hlt). lra. }
  destruct (radius_scale_law (fun x => x)
              [mkEntry "a" (JNum 5); mkEntry "b" (JNum 3); mkEntry "c" (JNum 1)]
              [5; 3; 1] 1 5 6 30 eq_refl eq_refl (fun x y H => H) eq_refl eq_refl
              eq_refl
              (or_intror (or_intror (or_introl eq_refl))) (or_introl eq_refl) Hb
              Hlt Hne)
    as (_ & _ & _ & _ & _ & H1 & H2 & _).
  split; [exact H1|exact H2].
Defined.

Lemma sqrt_INR_square (n : nat) : sqrt (INR (n * n)) = INR n.
Proof. rewrite mult_INR. apply sqrt_square, pos_INR. Qed.

(** C3, as stated, fails.  With counts 1, 4 and 9 and the range [6, 30]
    the word counted 4 gets radius 18, not 6 + 24 * sqrt (3 / 8); and with
    the range [30, 6] the greater count gets the smaller radius. *)
Lemma radius_scale_not_sqrt_of_ratio :
  radius_scale [mkEntry "a" (JNum 1); mkEntry "b" (JNum 4); mkEntry "c" (JNum 9)]
               6 30 (JNum 4) = Num 18 /\
  (6 + (30 - 6) * sqrt ((4 - 1) / (9 - 1)))%R <> 18%R /\
  radius_scale [mkEntry "a" (JNum 1); mkEntry "b" (JNum 4); mkEntry "c" (JNum 9)]
               30 6 (JNum 1) = Num 30 /\
  radius_scale [mkEntry "a" (JNum 1); mkEntry "b" (JNum 4); mkEntry "c" (JNum 9)]
               30 6 (JNum 9) = Num 6 /\
  (6 < 30)%R.
Proof.
  assert (Hb : forall a, In a [1; 4; 9] -> 1 <= a <= 9)
    by (intros a [<-|[<-|[<-|[]]]]; lia).
  assert (H1 : sqrt (INR 1) = 1%R) by (change 1 with (1 * 1); rewrite sqrt_INR_square; simpl; lra).
  assert (H4 : sqrt (INR 4) = 2%R) by (change 4 with (2 * 2); rewrite sqrt_INR_square; simpl; lra).
  assert (H9 : sqrt (INR 9) = 3%R) by (change 9 with (3 * 3); rewrite sqrt_INR_square; simpl; lra).
  assert (Hf : forall minR maxR c,
    radius_scale [mkEntry "a" (JNum 1); mkEntry "b" (JNum 4); mkEntry "c" (JNum 9)]
                 minR maxR (JNum c) =
    Num (minR + (maxR - minR) * ((sqrt (INR c) - 1) / (3 - 1)))).
  { intros minR maxR c.
    rewrite (radius_scale_spread
               [mkEntry "a" (JNum 1); mkEntry "b" (JNum 4); mkEntry "c" (JNum 9)]
               [1; 4; 9] 1 9 minR maxR c eq_refl).
    - now rewrite H1, H9.
    - now left.
    - now right; right; left.
    - exact Hb.
    - lia. }
  split; [rewrite Hf, H4; f_equal; lra|].
  split.
  - intros Heq.
    assert (Hq : (sqrt ((4 - 1) / (9 - 1)) = 1 / 2)%R) by lra.
    assert (Hsq : (sqrt ((4 - 1) / (9 - 1)) * sqrt ((4 - 1) / (9 - 1)) = (4 - 1) / (9 - 1))%R)
      by (apply sqrt_sqrt; lra).
    rewrite Hq in Hsq. lra.
  - split; [rewrite Hf, H1; f_equal; lra|].
    split; [rewrite Hf, H9; f_equal; lra|lra].
Qed.

(** C9: in a non-empty Word list whose counts are all equal, the radius
    scale gives every word the midpoint (minR + maxR) / 2 of the range. *)
Theorem radius_scale_equal_counts (words : list Entry) (c : nat) (minR maxR : R) :
  words <> [] ->
  (forall e, In e words -> entry_count e = JNum c) ->
  forall e, In e words ->
    radius_scale words minR maxR (entry_count e) = Num ((minR + maxR) / 2).
Proof.
  intros Hne Hall e He. rewrite (Hall e He).
  now apply radius_scale_collapsed.
Qed.

Lemma radius_scale_equal_counts_witness :
  radius_scale [mkEntry "a" (JNum 2); mkEntry "b" (JNum 2)] 6 30 (JNum 2)
  = Num ((6 + 30) / 2).
Proof.
  assert (Hne : [mkEntry "a" (JNum 2); mkEntry "b" (JNum 2)] <> []) by discriminate.
  assert (Hall : forall e, In e [mkEntry "a" (JNum 2); mkEntry "b" (JNum 2)] ->
                           entry_count e = JNum 2)
    by (intros e [<-|[<-|[]]]; reflexivity).
  exact (radius_scale_equal_counts
           [mkEntry "a" (JNum 2); mkEntry "b" (JNum 2)] 2 6 30 Hne Hall
           (mkEntry "a" (JNum 2)) (or_introl eq_refl)).
Defined.

(** ** The Font Fitter ([optimalFontSize]) *)

Section FontFitterFacts.

Import FontFitter.
Local Open Scope R_scope.

Variable getBBox : SvgText -> R * R.

Lemma set_font_size_twice t m m' :
  set_font_size (set_font_size t m) m' = set_font_size t m'.
Proof. reflexivity. Qed.

Lemma fits_Num d v : fits d (Num v) = true <-> d <= v.
Proof.
  unfold fits. destruct (Rle_dec d v); split; intros; try reflexivity; try assumption;
    [discriminate|contradiction].
Qed.

Lemma half_diagonal_nonneg box : 0 <= half_diagonal box.
Proof.
  unfold half_diagonal. pose proof (sqrt_pos (fst box ^ 2 + snd box ^ 2)). lra.
Qed.

(** A round keeps the content, the family and the weight of the element. *)
Lemma round_text r st m :
  set_font_size (text (round getBBox r st)) m = set_font_size (text st) m.
Proof.
  unfold round. destruct (fits _ r); reflexivity.
Qed.

Lemma rounds_text r st n m :
  set_font_size (text (Nat.iter n (round getBBox r) st)) m = set_font_size (text st) m.
Proof.
  induction n as [|n IH]; simpl; [reflexivity|]. now rewrite round_text.
Qed.

Lemma rounds_bracket (t : SvgText) (rv : R) (n : nat) :
  measured_at getBBox t 0 <= rv ->
  bracket getBBox t rv n (Nat.iter n (round getBBox (Num rv)) (mkSearch t 0 100)).
Proof.
  intros H0. induction n as [|n IH].
  - simpl. constructor; simpl; try lra; try (now left).
  - change (Nat.iter (S n) (round getBBox (Num rv)) (mkSearch t 0 100))
      with (round getBBox (Num rv) (Nat.iter n (round getBBox (Num rv)) (mkSearch t 0 100))).
    pose proof (rounds_text (Num rv) (mkSearch t 0 100) n) as Ht. simpl in Ht.
    destruct IH as [Hl Ho Hh Hw Hok Hng].
    set (st := Nat.iter n (round getBBox (Num rv)) (mkSearch t 0 100)) in *.
    assert (Hp : 0 < 2 ^ n) by (apply pow_lt; lra).
    assert (Hw' : 100 / 2 ^ S n = (100 / 2 ^ n) / 2) by (simpl; field; lra).
    assert (Hpos : 0 < 100 / 2 ^ n) by (apply Rdiv_lt_0_compat; lra).
    unfold round. rewrite Ht. fold (measured_at getBBox t ((ok st + ng st) / 2)).
    destruct (fits (measured_at getBBox t ((ok st + ng st) / 2)) (Num rv)) eqn:Hfit.
    + apply fits_Num in Hfit. constructor; cbn [ok ng text]; try lra; assumption.
    + constructor; cbn [ok ng text]; try lra; try assumption.
      right. destruct (Rle_dec (measured_at getBBox t ((ok st + ng st) / 2)) rv) as [Hle|Hgt];
        [apply fits_Num in Hle; congruence|lra].
Qed.

(** When no size fits, the search stays at its start. *)
Lemma rounds_never_fit r st n :
  (forall t, fits (half_diagonal (getBBox t)) r = false) ->
  ok (Nat.iter n (round getBBox r) st) = ok st.
Proof.
  intros Hno. induction n as [|n IH]; simpl; [reflexivity|].
  unfold round at 1. now rewrite Hno.
Qed.

End FontFitterFacts.

(** C8, as amended: for every word string and radius r, given a rendering
    capability whose bounding-box diagonal is monotone in font size and for
    which font size 0 fits (its diagonal halved is at most r),
    [optimalFontSize] performs exactly 10 bisection rounds over [0, 100]
    and returns a font size f in [0, 100] at which the diagonal halved is
    at most r, and every font size in [0, 100] that fits is at most
    100 / 2^10 above f. *)
Theorem optimalFontSize_fits (getBBox : FontFitter.SvgText -> R * R)
    (word : string) (rv : R) (fontFamily fontWeight : option string) :
  let t := FontFitter.measured word fontFamily fontWeight in
  let d := FontFitter.measured_at getBBox t in
  (forall a b : R, (0 <= a)%R -> (a <= b)%R -> (b <= 100)%R -> (d a <= d b)%R) ->
  (d 0 <= rv)%R ->
  let st := FontFitter.fit getBBox word (Num rv) fontFamily fontWeight in
  let f := FontFitter.optimalFontSize getBBox word (Num rv) fontFamily fontWeight in
  st = Nat.iter 10 (FontFitter.round getBBox (Num rv)) (FontFitter.mkSearch t 0 100) /\
  f = FontFitter.ok st /\
  (FontFitter.ng st - f = 100 / 2 ^ 10)%R /\
  (0 <= f <= 100)%R /\
  (d f <= rv)%R /\
  (forall m : R, (0 <= m <= 100)%R -> (d m <= rv)%R -> (m - f <= 100 / 2 ^ 10)%R).
Proof.
  intros t d Hmono H0 st f.
  pose proof (rounds_bracket getBBox t rv 10 H0) as B.
  subst f st. unfold FontFitter.optimalFontSize, FontFitter.fit. fold t.
  set (st := Nat.iter 10 (FontFitter.round getBBox (Num rv))
               (FontFitter.mkSearch t 0 100)) in *.
  destruct B as [Hl Ho Hh Hw Hok Hng]. fold d in Hok, Hng.
  split; [reflexivity|]. split; [reflexivity|]. split; [exact Hw|].
  split; [lra|]. split; [exact Hok|].
  intros m Hm Hfit. destruct Hng as [Hng|Hng]; [lra|].
  destruct (Rle_dec m (FontFitter.ng st)) as [Hle|Hgt]; [lra|].
  assert (d (FontFitter.ng st) <= d m)%R by (apply Hmono; lra). lra.
Qed.

Lemma half_diagonal_glyph_box (t : FontFitter.SvgText) (m : R) :
  (0 <= m)%R ->
  FontFitter.half_diagonal (Sample.glyph_box (FontFitter.set_font_size t m))
  = (sqrt 10 * m / 2)%R.
Proof.
  intros Hm. unfold FontFitter.half_diagonal, Sample.glyph_box. simpl.
  replace (3 * m * (3 * m * 1) + m * (m * 1))%R with (10 * (m * m))%R by ring.
  rewrite sqrt_mult by nra. now rewrite sqrt_square.
Qed.

Lemma optimalFontSize_fits_witness :
  (0 <= FontFitter.optimalFontSize Sample.glyph_box "neko" (Num 30) None None <= 100)%R /\
  (FontFitter.measured_at Sample.glyph_box (FontFitter.measured "neko" None None)
     (FontFitter.optimalFontSize Sample.glyph_box "neko" (Num 30) None None) <= 30)%R.
Proof.
  assert (Hs : (0 <= sqrt 10)%R) by apply sqrt_pos.
  assert (Hmono : forall a b : R, (0 <= a)%R -> (a <= b)%R -> (b <= 100)%R ->
            (FontFitter.measured_at Sample.glyph_box (FontFitter.measured "neko" None None) a
             <= FontFitter.measured_at Sample.glyph_box (FontFitter.measured "neko" None None) b)%R).
  { intros a b Ha Hab Hb. unfold FontFitter.measured_at.
    rewrite !half_diagonal_glyph_box by lra. nra. }
  assert (H0 : (FontFitter.measured_at Sample.glyph_box (FontFitter.measured "neko" None None) 0
                <= 30)%R).
  { unfold FontFitter.measured_at. rewrite half_diagonal_glyph_box by lra. lra. }
  destruct (optimalFontSize_fits Sample.glyph_box "neko" 30 None None Hmono H0)
    as (_ & _ & _ & Hr & Hf & _).
  split; [exact Hr|exact Hf].
Defined.

(** C8, as stated, fails when font size 0 does not fit: the search returns
    its start, font size 0, at which the text does not fit either.  So it
    is for a box that is never smaller than 6 by 8 in a bubble of radius
    1, and for any box in a bubble of negative radius. *)
Lemma optimalFontSize_nothing_fits :
  (forall a b : R, (0 <= a)%R -> (a <= b)%R -> (b <= 100)%R ->
     (FontFitter.measured_at Sample.padded_box (FontFitter.measured "neko" None None) a <=
      FontFitter.measured_at Sample.padded_box (FontFitter.measured "neko" None None) b)%R) /\
  FontFitter.optimalFontSize Sample.padded_box "neko" (Num 1) None None = 0%R /\
  FontFitter.measured_at Sample.padded_box (FontFitter.measured "neko" None None) 0 = 5%R /\
  FontFitter.optimalFontSize Sample.glyph_box "neko" (Num (-1)) None None = 0%R /\
  FontFitter.measured_at Sample.glyph_box (FontFitter.measured "neko" None None) 0 = 0%R.
Proof.
  assert (H5 : forall t, FontFitter.half_diagonal (Sample.padded_box t) = 5%R).
  { intros t. unfold FontFitter.half_diagonal, Sample.padded_box. simpl.
    replace (6 * (6 * 1) + 8 * (8 * 1))%R with (10 * 10)%R by ring.
    rewrite sqrt_square; lra. }
  split; [intros a b _ _ _; unfold FontFitter.measured_at; rewrite !H5; lra|].
  split.
  { unfold FontFitter.optimalFontSize, FontFitter.fit.
    rewrite rounds_never_fit; [reflexivity|].
    intros t. rewrite H5. unfold FontFitter.fits.
    destruct (Rle_dec 5 1); [lra|reflexivity]. }
  split; [apply H5|].
  split.
  { unfold FontFitter.optimalFontSize, FontFitter.fit.
    rewrite rounds_never_fit; [reflexivity|].
    intros t. pose proof (half_diagonal_nonneg (Sample.glyph_box t)).
    unfold FontFitter.fits.
    destruct (Rle_dec (FontFitter.half_diagonal (Sample.glyph_box t)) (-1));
      [lra|reflexivity]. }
  unfold FontFitter.measured_at. rewrite half_diagonal_glyph_box by lra. lra.
Qed.


(** * Further properties of the code *)

(** ** [countWords] on every input *)

Section FrequencyCounterAny.

Implicit Types (w x : string) (p l ks : list string).

Lemma own_words_In w p :
  In w (own_words p) <-> In w p /\ w <> "__proto__".
Proof.
  unfold own_words. rewrite filter_In, distinct_In, negb_true_iff, String.eqb_neq.
  tauto.
Qed.

Lemma own_words_NoDup p : List.NoDup (own_words p).
Proof. apply List.NoDup_filter, distinct_NoDup. Qed.

Lemma own_words_snoc p w :
  own_words (p ++ [w]) =
  if String.eqb w "__proto__" then own_words p
  else if in_dec string_dec w p then own_words p else own_words p ++ [w].
Proof.
  unfold own_words. rewrite distinct_snoc.
  destruct (in_dec string_dec w p) as [Hin|Hin].
  - now destruct (String.eqb w "__proto__").
  - rewrite List.filter_app. simpl.
    destruct (String.eqb w "__proto__"); simpl; [apply app_nil_r|reflexivity].
Qed.

Lemma count_value_other k p w :
  k <> w -> count_value k (p ++ [w]) = count_value k p.
Proof.
  intros Hk. unfold count_value. rewrite occurrences_snoc.
  destruct (String.eqb_spec k w); [congruence|]. now rewrite Nat.add_0_r.
Qed.

Lemma count_value_same p w :
  count_value w (p ++ [w]) = plus_one (count_value w p).
Proof.
  unfold count_value. rewrite occurrences_snoc, String.eqb_refl.
  now destruct (inherited w).
Qed.

Lemma count_value_first p w :
  ~ In w p ->
  count_value w (p ++ [w]) = if inherited w then JStr w 1 else JNum 1.
Proof.
  intros Hin. rewrite count_value_same. unfold count_value, occurrences.
  rewrite (proj1 (count_occ_not_In string_dec p w)) by assumption.
  now destruct (inherited w).
Qed.

Lemma put_last (o : props) w v v' :
  own o w = None -> put (o ++ [(w, v)]) w v' = o ++ [(w, v')].
Proof.
  induction o as [|[k u] o IH]; simpl.
  - now rewrite String.eqb_refl.
  - destruct (String.eqb_spec w k); [discriminate|]. intros H. now rewrite IH.
Qed.

Lemma own_last (o : props) w v :
  own o w = None -> own (o ++ [(w, v)]) w = Some v.
Proof.
  induction o as [|[k u] o IH]; simpl.
  - now rewrite String.eqb_refl.
  - destruct (String.eqb_spec w k); [discriminate|]. exact IH.
Qed.

Lemma counted_any_other p w :
  ~ In w (own_words p) ->
  List.map (fun k => (k, count_value k (p ++ [w]))) (own_words p) = counted_any p.
Proof.
  intros Hn. unfold counted_any. apply map_ext_in. intros k Hk.
  rewrite count_value_other; [reflexivity|]. intros ->. contradiction.
Qed.

(** One round of the loop, whatever the word. *)
Lemma count_step_any p w : count_step (counted_any p) w = counted_any (p ++ [w]).
Proof.
  pose proof (counted_any_other p w) as Hother.
  unfold count_step, has_property, get, set, counted_any in *.
  rewrite own_words_snoc, !own_keyed.
  destruct (String.eqb_spec w "__proto__") as [->|Hproto].
  - (* the accessor [__proto__]: found by [in], never stored *)
    destruct (in_dec string_dec "__proto__" (own_words p)) as [Hd|Hd];
      [apply own_words_In in Hd; tauto|].
    simpl. symmetry. now apply Hother.
  - destruct (in_dec string_dec w (own_words p)) as [Hd|Hd];
      destruct (in_dec string_dec w p) as [Hin|Hin];
      try (rewrite own_words_In in Hd; tauto).
    + (* seen before *)
      rewrite own_keyed. destruct (in_dec string_dec w (own_words p)); [|tauto].
      rewrite <- count_value_same.
      apply (put_present (fun k => count_value k p)
                         (fun k => count_value k (p ++ [w])));
        [apply own_words_NoDup|assumption|].
      intros k Hk. now apply count_value_other.
    + (* first occurrence *)
      assert (Hnone : own (List.map (fun k => (k, count_value k p)) (own_words p)) w = None).
      { rewrite own_keyed. destruct (in_dec string_dec w (own_words p)); [tauto|reflexivity]. }
      rewrite map_app. simpl. rewrite count_value_first by assumption.
      rewrite (Hother Hd).
      destruct (inherited w) eqn:Hinh.
      * rewrite Hnone. simpl.
        now rewrite (put_fresh (fun k => count_value k p)) by assumption.
      * rewrite (put_fresh (fun k => count_value k p)) by assumption.
        rewrite own_last by assumption. simpl. now apply put_last.
Qed.

Lemma count_loop_any l p :
  fold_left count_step l (counted_any p) = counted_any (p ++ l).
Proof.
  revert p. induction l as [|w l IH]; intros p; simpl.
  - now rewrite app_nil_r.
  - rewrite count_step_any, IH. now rewrite <- app_assoc.
Qed.

End FrequencyCounterAny.

Lemma countWords_counted (words : list string) :
  countWords words =
  List.map (fun w => mkEntry w (count_value w words)) (key_order (own_words words)).
Proof.
  unfold countWords.
  change (@nil (string * jsval)) with (counted_any []).
  rewrite count_loop_any. simpl. unfold counted_any.
  rewrite Object_entries_keyed. now rewrite map_map.
Qed.

(** For every sequence of words, [countWords] lists each distinct word
    other than [__proto__] once, the array indices first and ascending, the
    other words in first-occurrence order; the count of a word is its
    number of occurrences, as a number unless the word names a member of
    [Object.prototype], whose count is a string. *)
Theorem countWords_any (words : list string) :
  countWords words =
    List.map (fun w => mkEntry w (if inherited w then JStr w (occurrences w words)
                                  else JNum (occurrences w words)))
      (List.map snd (index_keys (own_words words)) ++ string_keys (own_words words)) /\
  own_words words =
    List.filter (fun w => negb (String.eqb w "__proto__")) (distinct words) /\
  StronglySorted N.le (List.map fst (index_keys (own_words words))) /\
  Forall (fun '(i, k) => array_index k = Some i) (index_keys (own_words words)).
Proof.
  split; [exact (countWords_counted words)|].
  split; [reflexivity|]. split; apply index_keys_sorted.
Qed.

Lemma countWords_words (words : list string) :
  List.map entry_word (countWords words) = key_order (own_words words).
Proof.
  rewrite countWords_counted, map_map. simpl. apply map_id.
Qed.

Lemma countWords_keys (words : list string) :
  List.NoDup (List.map entry_word (countWords words)) /\
  (forall e, In e (countWords words) ->
     In (entry_word e) words /\ entry_word e <> "__proto__") /\
  (forall w, In w words -> w <> "__proto__" ->
     exists e, In e (countWords words) /\ entry_word e = w).
Proof.
  pose proof (countWords_words words) as Hw.
  pose proof (key_order_perm (own_words words)) as Hp.
  split; [|split].
  - rewrite Hw. eapply Permutation_NoDup; [symmetry; exact Hp|apply own_words_NoDup].
  - intros e He.
    assert (Hk : In (entry_word e) (key_order (own_words words)))
      by (rewrite <- Hw; now apply in_map).
    apply (Permutation_in _ Hp) in Hk. now apply own_words_In in Hk.
  - intros w Hin Hne.
    assert (Hk : In w (List.map entry_word (countWords words))).
    { rewrite Hw. apply (Permutation_in _ (Permutation_sym Hp)).
      apply own_words_In. tauto. }
    apply in_map_iff in Hk as (e & He & Hin'). exists e. tauto.
Qed.

(** [countWords] never lists a word twice, never lists [__proto__], lists
    only words of its input, and lists every other word of its input. *)
Theorem countWords_listed (words : list string) :
  List.NoDup (List.map entry_word (countWords words)) /\
  (forall e, In e (countWords words) ->
     In (entry_word e) words /\ entry_word e <> "__proto__") /\
  (forall w, In w words -> w <> "__proto__" ->
     exists e, In e (countWords words) /\ entry_word e = w).
Proof. exact (countWords_keys words). Qed.

Lemma list_sum_perm (l l' : list nat) :
  Permutation l l' -> list_sum l = list_sum l'.
Proof. induction 1; simpl; lia. Qed.

Lemma list_sum_map_add {A : Type} (f g : A -> nat) (l : list A) :
  list_sum (List.map (fun a => f a + g a) l) =
  list_sum (List.map f l) + list_sum (List.map g l).
Proof. induction l as [|a l IH]; simpl; lia. Qed.

Lemma occurrences_sum (l ks : list string) :
  List.NoDup ks -> (forall w, In w l -> In w ks) ->
  list_sum (List.map (fun w => occurrences w l) ks) = List.length l.
Proof.
  intros Hnd. induction l as [|x t IH]; intros Hin.
  - clear Hnd Hin. induction ks as [|k ks IHk]; simpl; [reflexivity|exact IHk].
  - assert (Hone : list_sum (List.map (fun w => if string_dec x w then 1 else 0) ks) = 1).
    { specialize (Hin x (or_introl eq_refl)). clear IH.
      induction Hnd as [|k ks Hk Hnd IHk]; [destruct Hin|]. simpl.
      destruct (string_dec x k) as [->|Hne].
      - assert (Hz : list_sum (List.map (fun w => if string_dec k w then 1 else 0) ks) = 0).
        { clear -Hk. induction ks as [|a ks IH]; simpl; [reflexivity|].
          destruct (string_dec k a) as [->|]; [simpl in Hk; tauto|].
          apply IH. simpl in Hk. tauto. }
        lia.
      - destruct Hin as [->|Hin]; [congruence|]. now rewrite IHk. }
    assert (Hsplit :
      list_sum (List.map (fun w => occurrences w (x :: t)) ks) =
      list_sum (List.map (fun w => if string_dec x w then 1 else 0) ks) +
      list_sum (List.map (fun w => occurrences w t) ks)).
    { rewrite <- list_sum_map_add. f_equal. apply map_ext. intros k.
      unfold occurrences. simpl. destruct (string_dec x k); reflexivity. }
    rewrite Hsplit, Hone, IH; [reflexivity|].
    intros w Hw. apply Hin. now right.
Qed.

(** On words that name no member of [Object.prototype], the counts are
    positive numbers and add up to the number of words read. *)
Theorem countWords_total (words : list string) :
  Forall (fun w => inherited w = false) words ->
  exists ns,
    List.map entry_count (countWords words) = List.map JNum ns /\
    Forall (fun n => 1 <= n) ns /\
    list_sum ns = List.length words.
Proof.
  intros Hw. rewrite (countWords_key_order words Hw). 
  exists (List.map (fun w => occurrences w words) (key_order (distinct words))).
  pose proof (key_order_perm (distinct words)) as Hp.
  split; [now rewrite !map_map|]. split.
  - apply List.Forall_forall. intros n Hn.
    apply in_map_iff in Hn as (w & <- & Hin).
    apply (Permutation_in _ Hp) in Hin. rewrite distinct_In in Hin.
    pose proof (proj1 (count_occ_In string_dec words w) Hin) as Hpos.
    unfold occurrences. lia.
  - rewrite (list_sum_perm _ _ (Permutation_map _ Hp)).
    apply occurrences_sum; [apply distinct_NoDup|].
    intros w Hin. now apply distinct_In.
Qed.

Lemma countWords_total_witness :
  exists ns,
    List.map entry_count (countWords ["b"; "7"; "b"; "a"; "7"; "b"]) = List.map JNum ns /\
    Forall (fun n => 1 <= n) ns /\
    list_sum ns = 6.
Proof.
  exact (countWords_total ["b"; "7"; "b"; "a"; "7"; "b"]
           ltac:(repeat constructor)).
Defined.

(** ** [tokenize], [countWords] and [inference] together *)

Section Lookup.

Variable env : Env.

Lemma tokenize_In (text : string) (w : string) :
  In w (tokenize env text) <->
  In w (basic_forms env text) /\ in_vocabulary env w = true.
Proof. unfold tokenize. apply filter_In. Qed.

Lemma inference_nth (words : list Entry) (i : nat) (e : Entry) :
  nth_error words i = Some e ->
  nth_error (inference env words) i = Some (embedding env (entry_word e)).
Proof.
  intros He. unfold inference. now rewrite nth_error_map, He.
Qed.

End Lookup.

(** The filter of [tokenize] tests [word in vocabulary], which every name
    of [Object.prototype] passes: such a basic form, absent from the
    vocabulary, is kept, is counted, and gets the vector [undefined]. *)
Theorem tokenize_keeps_inherited (env : Env) (text w : string) :
  inherited w = true -> w <> "__proto__" ->
  vocabulary env !! w = None ->
  In w (basic_forms env text) ->
  In w (tokenize env text) /\
  exists i e,
    nth_error (countWords (tokenize env text)) i = Some e /\
    entry_word e = w /\
    nth_error (inference env (countWords (tokenize env text))) i = Some None.
Proof.
  intros Hinh Hne Habs Hin.
  assert (Ht : In w (tokenize env text)).
  { apply tokenize_In. split; [exact Hin|]. unfold in_vocabulary. now rewrite Habs. }
  split; [exact Ht|].
  destruct (countWords_keys (tokenize env text)) as (_ & _ & Hall).
  destruct (Hall w Ht Hne) as (e & He & Hw).
  apply In_nth_error in He as [i Hi].
  exists i, e. split; [exact Hi|]. split; [exact Hw|].
  rewrite (inference_nth env _ i e Hi), Hw. unfold embedding. now rewrite Habs.
Qed.

Lemma tokenize_keeps_inherited_witness :
  exists i e,
    nth_error (countWords (tokenize Edge.rowless_env "constructor")) i = Some e /\
    entry_word e = "constructor" /\
    nth_error (inference Edge.rowless_env
                 (countWords (tokenize Edge.rowless_env "constructor"))) i = Some None.
Proof.
  exact (proj2 (tokenize_keeps_inherited Edge.rowless_env "constructor" "constructor"
                  eq_refl ltac:(discriminate) eq_refl (or_introl eq_refl))).
Defined.

(** Every counted word of a tokenized text that names no member of
    [Object.prototype] is a key of the vocabulary, and its vector is the
    row of the weights at its index. *)
Theorem counted_word_in_vocabulary (env : Env) (text : string) (e : Entry) :
  In e (countWords (tokenize env text)) ->
  inherited (entry_word e) = false ->
  exists idx,
    vocabulary env !! entry_word e = Some idx /\
    embedding env (entry_word e) = nth_error (weight env) idx.
Proof.
  intros He Hinh.
  destruct (countWords_keys (tokenize env text)) as (_ & Hsub & _).
  destruct (Hsub e He) as [Hin _].
  apply tokenize_In in Hin as [_ Hv]. unfold in_vocabulary in Hv.
  unfold embedding.
  destruct (vocabulary env !! entry_word e) as [idx|]; [|congruence].
  now exists idx.
Qed.

Lemma counted_word_in_vocabulary_witness :
  exists idx,
    vocabulary Edge.rowless_env !! "inu" = Some idx /\
    embedding Edge.rowless_env "inu" = nth_error (weight Edge.rowless_env) idx.
Proof.
  exact (counted_word_in_vocabulary Edge.rowless_env "inu" (mkEntry "inu" (JNum 1))
           (or_introl eq_refl) eq_refl).
Defined.

(** ** [visualize] when a library returns less than one item per word *)

Section PipelineEdges.

Variable env : Env.

Lemma place_words rScale xy groups words : forall i placed,
  place rScale xy groups i words = Returns placed ->
  List.map word placed = List.map entry_word words /\
  List.map count placed = List.map entry_count words.
Proof.
  induction words as [|e rest IH]; intros i placed Hp; simpl in Hp.
  - injection Hp as <-. split; reflexivity.
  - destruct (nth_error xy i) as [[px py]|]; [|discriminate].
    destruct (place rScale xy groups (S i) rest) as [ws| |] eqn:Hrest;
      simpl in Hp; try discriminate.
    injection Hp as <-. destruct (IH (S i) ws Hrest) as [Hw Hc].
    simpl. now rewrite Hw, Hc.
Qed.

Lemma relax_from_words bodies words : forall i,
  List.map word (relax_from env bodies i words) = List.map word words /\
  List.map count (relax_from env bodies i words) = List.map count words.
Proof.
  induction words as [|w rest IH]; intros i; simpl; [split; reflexivity|].
  destruct (IH (S i)) as [Hw Hc]. rewrite Hw, Hc.
  destruct (relax_frame env bodies i w) as (-> & -> & _). split; reflexivity.
Qed.

Lemma visualize_steps text numClusters minR maxR result :
  visualize env text numClusters minR maxR = Returns result ->
  exists xy groups placed,
    dimensionalityReduction env
      (inference env (countWords (tokenize env text))) = Returns xy /\
    clustering env xy numClusters = Returns groups /\
    place (radius_scale (countWords (tokenize env text)) minR maxR)
          xy groups 0 (countWords (tokenize env text)) = Returns placed /\
    result = improveLayout env placed.
Proof.
  unfold visualize. intros Hv.
  destruct (dimensionalityReduction env _) as [xy| |] eqn:Hxy; try discriminate.
  simpl in Hv.
  destruct (clustering env xy numClusters) as [groups| |] eqn:Hg; try discriminate.
  simpl in Hv.
  destruct (place _ xy groups 0 _) as [placed| |] eqn:Hplace; try discriminate.
  simpl in Hv. injection Hv as <-.
  exists xy, groups, placed.
  split; [reflexivity|]. split; [exact Hg|]. split; [exact Hplace|reflexivity].
Qed.

End PipelineEdges.

(** When the reducer returns fewer rows than there are counted words,
    the [forEach] of [visualize] reads a coordinate of [undefined] and
    [visualize] fails with a TypeError, whatever the clusterer returned. *)
Theorem visualize_rows_missing (env : Env) (text : string) (numClusters : Z)
    (minR maxR : R) (xy : list (R * R)) (groups : list nat) :
  dimensionalityReduction env
    (inference env (countWords (tokenize env text))) = Returns xy ->
  clustering env xy numClusters = Returns groups ->
  List.length xy < List.length (countWords (tokenize env text)) ->
  visualize env text numClusters minR maxR = Throws TypeError.
Proof.
  intros Hxy Hg Hlen. unfold visualize. rewrite Hxy. simpl. rewrite Hg. simpl.
  rewrite place_throws; [reflexivity|lia|simpl; lia].
Qed.

Lemma visualize_rows_missing_witness :
  visualize Edge.rowless_env "neko" 1 6 30 = Throws TypeError.
Proof.
  apply (visualize_rows_missing Edge.rowless_env "neko" 1 6 30 [] []);
    [reflexivity|reflexivity|vm_compute; lia].
Defined.

(** When the clusterer returns fewer ids than there are counted words,
    [visualize] raises no error: the Words past the end of the assignment
    get the group [undefined]. *)
Theorem visualize_ids_missing (env : Env) (text : string) (numClusters : Z)
    (minR maxR : R) (xy : list (R * R)) (groups : list nat) :
  dimensionalityReduction env
    (inference env (countWords (tokenize env text))) = Returns xy ->
  clustering env xy numClusters = Returns groups ->
  List.length (countWords (tokenize env text)) <= List.length xy ->
  exists result,
    visualize env text numClusters minR maxR = Returns result /\
    List.length result = List.length (countWords (tokenize env text)) /\
    forall i w, nth_error result i = Some w ->
      List.length groups <= i -> group w = None.
Proof.
  intros Hxy Hg Hlen.
  destruct (place_returns
              (radius_scale (countWords (tokenize env text)) minR maxR)
              xy groups (countWords (tokenize env text)) 0)
    as (placed & Hplace & Hl & Hnth); [simpl; lia|].
  exists (improveLayout env placed). split; [|split].
  - unfold visualize. rewrite Hxy. simpl. rewrite Hg. simpl. now rewrite Hplace.
  - unfold improveLayout. now rewrite relax_from_length.
  - intros i w Hw Hi. unfold improveLayout in Hw.
    rewrite relax_from_nth in Hw. simpl in Hw.
    destruct (nth_error placed i) as [p|] eqn:Hp; [|discriminate].
    simpl in Hw. injection Hw as <-.
    destruct (relax_frame env (List.map body placed) i p) as (_ & _ & _ & _ & -> & _).
    destruct (nth_error (countWords (tokenize env text)) i) as [e|] eqn:He.
    + destruct (Hnth i e He) as (px & py & _ & Hp'). simpl in Hp'.
      rewrite Hp in Hp'. injection Hp' as ->. simpl.
      now apply nth_error_None.
    + apply nth_error_None in He.
      assert (i < List.length placed) by (apply nth_error_Some; congruence). lia.
Qed.

Lemma visualize_ids_missing_witness :
  exists result,
    visualize Edge.idless_env "neko" 1 6 30 = Returns result /\
    List.length result = 1 /\
    forall i w, nth_error result i = Some w -> 0 <= i -> group w = None.
Proof.
  destruct (visualize_ids_missing Edge.idless_env "neko" 1 6 30 [(1%R, 2%R)] [])
    as (result & Hv & Hl & Hg);
    [reflexivity|reflexivity|vm_compute; lia|].
  exists result. split; [exact Hv|]. split; [rewrite Hl; reflexivity|exact Hg].
Defined.

(** Whenever [visualize] returns, its Words carry, in order, the words and
    counts of [countWords] of the tokens: one Word per distinct token other
    than [__proto__], and no two Words with the same word. *)
Theorem visualize_words (env : Env) (text : string) (numClusters : Z)
    (minR maxR : R) (result : list Word) :
  visualize env text numClusters minR maxR = Returns result ->
  List.map word result = List.map entry_word (countWords (tokenize env text)) /\
  List.map count result = List.map entry_count (countWords (tokenize env text)) /\
  List.NoDup (List.map word result) /\
  List.length result =
    List.length (List.filter (fun w => negb (String.eqb w "__proto__"))
                             (distinct (tokenize env text))).
Proof.
  intros Hv.
  destruct (visualize_steps env text numClusters minR maxR result Hv)
    as (xy & groups & placed & _ & _ & Hplace & ->).
  destruct (place_words _ _ _ _ _ _ Hplace) as [Hw Hc].
  destruct (relax_from_words env (List.map body placed) placed 0) as [Hw' Hc'].
  unfold improveLayout.
  assert (Hwords : List.map word (relax_from env (List.map body placed) 0 placed)
                   = List.map entry_word (countWords (tokenize env text)))
    by now rewrite Hw'.
  split; [exact Hwords|]. split; [now rewrite Hc'|]. split.
  - rewrite Hwords. apply countWords_keys.
  - rewrite <- (length_map word), Hwords, countWords_words.
    apply Permutation_length, key_order_perm.
Qed.

Lemma visualize_words_witness :
  exists result,
    visualize (Sample.sample_env (fun _ => 0) Sample.one_cluster 1) "neko" 1 6 30
      = Returns result /\
    List.map word result = ["neko"].
Proof.
  assert (Hv : visualize (Sample.sample_env (fun _ => 0) Sample.one_cluster 1)
                         "neko" 1 6 30
               = Returns (improveLayout (Sample.sample_env (fun _ => 0) Sample.one_cluster 1)
                   [mkWord "neko" (JNum 1) (0 * 600) (0 * 600) (0 * 600) (0 * 600) (Some 0)
                      (radius_scale [mkEntry "neko" (JNum 1)] 6 30 (JNum 1))
                      None None None]))
    by reflexivity.
  eexists. split; [exact Hv|].
  exact (proj1 (visualize_words _ _ _ _ _ _ Hv)).
Defined.

(** ** [optimalFontSize] for every renderer *)

Section FontFitterAny.

Import FontFitter.
Local Open Scope R_scope.

Variable getBBox : SvgText -> R * R.

(** The bracket is halved in every round, whatever is measured. *)
Lemma rounds_span (r : jsnum) (t : SvgText) (n : nat) :
  let st := Nat.iter n (round getBBox r) (mkSearch t 0 100) in
  0 <= ok st /\ ok st <= ng st /\ ng st <= 100 /\ ng st - ok st = 100 / 2 ^ n.
Proof.
  induction n as [|n IH]; simpl.
  - repeat split; lra.
  - simpl in IH. destruct IH as (H0 & Ho & Hh & Hw).
    set (st := Nat.iter n (round getBBox r) (mkSearch t 0 100)) in *.
    assert (Hp : 0 < 2 ^ n) by (apply pow_lt; lra).
    assert (Hw' : 100 / (2 * 2 ^ n) = (100 / 2 ^ n) / 2) by (field; lra).
    unfold round. destruct (fits _ r); cbn [ok ng]; rewrite Hw'; repeat split; lra.
Qed.

Lemma round_measures (r : jsnum) (t : SvgText) (st : search) :
  (forall m, set_font_size (text st) m = set_font_size t m) ->
  round getBBox r st =
  let m := (ok st + ng st) / 2 in
  if fits (measured_at getBBox t m) r
  then mkSearch (set_font_size t m) m (ng st)
  else mkSearch (set_font_size t m) (ok st) m.
Proof.
  intros Ht. unfold round, measured_at. now rewrite Ht.
Qed.

Lemma fits_weaken (d v v' : R) :
  v <= v' -> fits d (Num v) = true -> fits d (Num v') = true.
Proof.
  rewrite !fits_Num. lra.
Qed.

(** Two searches on the same element, the second for the larger radius. *)
Lemma rounds_monotone (t : SvgText) (v v' : R) (n : nat) :
  v <= v' ->
  let st := Nat.iter n (round getBBox (Num v)) (mkSearch t 0 100) in
  let st' := Nat.iter n (round getBBox (Num v')) (mkSearch t 0 100) in
  (ok st = ok st' /\ ng st = ng st') \/ ng st <= ok st'.
Proof.
  intros Hv. induction n as [|n IH]; simpl; [left; split; reflexivity|].
  simpl in IH.
  pose proof (rounds_span (Num v) t n) as Hs. pose proof (rounds_span (Num v') t n) as Hs'.
  pose proof (rounds_text getBBox (Num v) (mkSearch t 0 100) n) as Ht.
  pose proof (rounds_text getBBox (Num v') (mkSearch t 0 100) n) as Ht'.
  simpl in Hs, Hs', Ht, Ht'.
  set (st := Nat.iter n (round getBBox (Num v)) (mkSearch t 0 100)) in *.
  set (st' := Nat.iter n (round getBBox (Num v')) (mkSearch t 0 100)) in *.
  rewrite (round_measures (Num v) t st Ht), (round_measures (Num v') t st' Ht').
  cbv zeta.
  destruct IH as [[Hok Hng]|Hsep].
  - rewrite <- Hok, <- Hng.
    destruct (fits (measured_at getBBox t ((ok st + ng st) / 2)) (Num v)) eqn:Hf.
    + rewrite (fits_weaken _ v v' Hv Hf). cbn [ok ng]. left. split; reflexivity.
    + destruct (fits (measured_at getBBox t ((ok st + ng st) / 2)) (Num v'));
        cbn [ok ng]; [right; lra|left; split; reflexivity].
  - right.
    destruct (fits (measured_at getBBox t ((ok st + ng st) / 2)) (Num v));
      destruct (fits (measured_at getBBox t ((ok st' + ng st') / 2)) (Num v'));
      cbn [ok ng]; lra.
Qed.

Lemma rounds_all_fit (t : SvgText) (v : R) (n : nat) :
  (forall m, 0 <= m <= 100 -> measured_at getBBox t m <= v) ->
  ng (Nat.iter n (round getBBox (Num v)) (mkSearch t 0 100)) = 100.
Proof.
  intros Hall. induction n as [|n IH]; simpl; [reflexivity|].
  pose proof (rounds_span (Num v) t n) as Hs.
  pose proof (rounds_text getBBox (Num v) (mkSearch t 0 100) n) as Ht.
  simpl in Hs, Ht.
  set (st := Nat.iter n (round getBBox (Num v)) (mkSearch t 0 100)) in *.
  rewrite (round_measures (Num v) t st Ht). cbv zeta.
  assert (Hf : fits (measured_at getBBox t ((ok st + ng st) / 2)) (Num v) = true).
  { apply fits_Num, Hall. lra. }
  rewrite Hf. exact IH.
Qed.

End FontFitterAny.

(** For every renderer, word and radius, the font size [optimalFontSize]
    returns lies between 0 and 100 - 100 / 2^10: the upper end 100 of the
    range is never returned. *)
Theorem optimalFontSize_range (getBBox : FontFitter.SvgText -> R * R)
    (word : string) (r : jsnum) (fontFamily fontWeight : option string) :
  (0 <= FontFitter.optimalFontSize getBBox word r fontFamily fontWeight
     <= 100 - 100 / 2 ^ 10)%R.
Proof.
  pose proof (rounds_span getBBox r
                (FontFitter.measured word fontFamily fontWeight) 10) as Hs.
  cbv zeta in Hs. unfold FontFitter.optimalFontSize, FontFitter.fit.
  set (st := Nat.iter 10 (FontFitter.round getBBox r)
               (FontFitter.mkSearch (FontFitter.measured word fontFamily fontWeight) 0 100))
    in *.
  lra.
Qed.

(** For a radius that is negative or not a number ([NaN], [undefined]) no
    measured size fits, and [optimalFontSize] returns 0 for every renderer. *)
Theorem optimalFontSize_no_radius (getBBox : FontFitter.SvgText -> R * R)
    (word : string) (r : jsnum) (fontFamily fontWeight : option string) :
  match r with Num v => (v < 0)%R | NaN | Undefined => True end ->
  FontFitter.optimalFontSize getBBox word r fontFamily fontWeight = 0%R.
Proof.
  intros Hr. unfold FontFitter.optimalFontSize, FontFitter.fit.
  rewrite rounds_never_fit; [reflexivity|].
  intros t. destruct r as [v| |]; simpl; try reflexivity.
  pose proof (half_diagonal_nonneg (getBBox t)).
  destruct (Rle_dec (FontFitter.half_diagonal (getBBox t)) v); [lra|reflexivity].
Qed.

Lemma optimalFontSize_no_radius_witness :
  FontFitter.optimalFontSize Sample.glyph_box "neko" Undefined None None = 0%R.
Proof.
  exact (optimalFontSize_no_radius Sample.glyph_box "neko" Undefined None None I).
Defined.

(** When the text fits at every font size of [0, 100], [optimalFontSize]
    returns 100 - 100 / 2^10. *)
Theorem optimalFontSize_all_fit (getBBox : FontFitter.SvgText -> R * R)
    (word : string) (rv : R) (fontFamily fontWeight : option string) :
  (forall m : R, (0 <= m <= 100)%R ->
     (FontFitter.measured_at getBBox
        (FontFitter.measured word fontFamily fontWeight) m <= rv)%R) ->
  FontFitter.optimalFontSize getBBox word (Num rv) fontFamily fontWeight
  = (100 - 100 / 2 ^ 10)%R.
Proof.
  intros Hall.
  pose proof (rounds_span getBBox (Num rv)
                (FontFitter.measured word fontFamily fontWeight) 10) as Hs.
  pose proof (rounds_all_fit getBBox
                (FontFitter.measured word fontFamily fontWeight) rv 10 Hall) as Hng.
  cbv zeta in Hs. unfold FontFitter.optimalFontSize, FontFitter.fit.
  set (st := Nat.iter 10 (FontFitter.round getBBox (Num rv))
               (FontFitter.mkSearch (FontFitter.measured word fontFamily fontWeight) 0 100))
    in *.
  lra.
Qed.

Lemma optimalFontSize_all_fit_witness :
  FontFitter.optimalFontSize Sample.padded_box "neko" (Num 5) None None
  = (100 - 100 / 2 ^ 10)%R.
Proof.
  apply optimalFontSize_all_fit. intros m _.
  unfold FontFitter.measured_at, FontFitter.half_diagonal, Sample.padded_box. simpl.
  replace (6 * (6 * 1) + 8 * (8 * 1))%R with (10 * 10)%R by ring.
  rewrite sqrt_square; lra.
Defined.

(** For every renderer, a larger bubble radius never yields a smaller font
    size. *)
Theorem optimalFontSize_monotone (getBBox : FontFitter.SvgText -> R * R)
    (word : string) (r1 r2 : R) (fontFamily fontWeight : option string) :
  (r1 <= r2)%R ->
  (FontFitter.optimalFontSize getBBox word (Num r1) fontFamily fontWeight <=
   FontFitter.optimalFontSize getBBox word (Num r2) fontFamily fontWeight)%R.
Proof.
  intros Hr.
  pose proof (rounds_monotone getBBox
                (FontFitter.measured word fontFamily fontWeight) r1 r2 10 Hr) as Hm.
  pose proof (rounds_span getBBox (Num r1)
                (FontFitter.measured word fontFamily fontWeight) 10) as Hs.
  cbv zeta in Hm, Hs. unfold FontFitter.optimalFontSize, FontFitter.fit.
  set (st := Nat.iter 10 (FontFitter.round getBBox (Num r1))
               (FontFitter.mkSearch (FontFitter.measured word fontFamily fontWeight) 0 100))
    in *.
  set (st' := Nat.iter 10 (FontFitter.round getBBox (Num r2))
               (FontFitter.mkSearch (FontFitter.measured word fontFamily fontWeight) 0 100))
    in *.
  destruct Hm as [[Hok _]|Hsep]; lra.
Qed.

Lemma optimalFontSize_monotone_witness :
  (FontFitter.optimalFontSize Sample.glyph_box "neko" (Num 6) None None <=
   FontFitter.optimalFontSize Sample.glyph_box "neko" (Num 30) None None)%R.
Proof.
  apply optimalFontSize_monotone. lra.
Defined.

(** ** The scale of [Chart] *)

Section ChartScale.

Import ChartLayout.
Local Open Scope R_scope.

Lemma fold_min_nan (l : list xnum) : fold_left min2 l XNaN = XNaN.
Proof. induction l as [|a l IH]; simpl; [reflexivity|exact IH]. Qed.

Lemma min2_nan_r (a : xnum) : min2 a XNaN = XNaN.
Proof. now destruct a. Qed.

Lemma fold_min_has_nan (l : list xnum) : forall a,
  In XNaN l -> fold_left min2 l a = XNaN.
Proof.
  induction l as [|b l IH]; intros a Hin; [destruct Hin|].
  destruct Hin as [->|Hin]; simpl.
  - rewrite min2_nan_r. apply fold_min_nan.
  - now apply IH.
Qed.

Lemma Chart_scale_nan (words : list Word) (w : Word) :
  In w words -> match r w with Num _ => False | NaN | Undefined => True end ->
  Chart_scale words = XNaN.
Proof.
  intros Hw Hr. unfold Chart_scale.
  assert (Hmin : Math_min (List.map (minus_r x) words) = XNaN).
  { apply fold_min_has_nan. apply in_map_iff. exists w. split; [|exact Hw].
    unfold minus_r. destruct (r w); [contradiction|reflexivity|reflexivity]. }
  rewrite Hmin. reflexivity.
Qed.

End ChartScale.

(** A single Word whose radius is [NaN] or [undefined] makes the scale of
    [Chart] [NaN], and with it the transform of every bubble. *)
Theorem Chart_scale_undefined_radius (words : list Word) (w : Word) :
  In w words ->
  match r w with Num _ => False | NaN | Undefined => True end ->
  ChartLayout.Chart_scale words = ChartLayout.XNaN.
Proof. exact (Chart_scale_nan words w). Qed.

Lemma Chart_scale_undefined_radius_witness :
  ChartLayout.Chart_scale
    [mkWord "neko" (JNum 2) 10 (-20) 10 (-20) (Some 0) (Num 30) None None None;
     mkWord "toString" (JStr "toString" 1) 0 0 0 0 (Some 0) Undefined None None None]
  = ChartLayout.XNaN.
Proof.
  apply (Chart_scale_undefined_radius _
           (mkWord "toString" (JStr "toString" 1) 0 0 0 0 (Some 0) Undefined
                   None None None)).
  - right. left. reflexivity.
  - exact I.
Defined.

(** ** A token that names a member of [Object.prototype], end to end *)

Section InheritedToken.

Variable env : Env.

Lemma place_radii rScale xy groups words : forall i placed,
  place rScale xy groups i words = Returns placed ->
  List.map (fun w => (word w, r w)) placed =
  List.map (fun e => (entry_word e, rScale (entry_count e))) words.
Proof.
  induction words as [|e rest IH]; intros i placed Hp; simpl in Hp.
  - now injection Hp as <-.
  - destruct (nth_error xy i) as [[px py]|]; [|discriminate].
    destruct (place rScale xy groups (S i) rest) as [ws| |] eqn:Hrest;
      simpl in Hp; try discriminate.
    injection Hp as <-. simpl. now rewrite (IH (S i) ws Hrest).
Qed.

Lemma relax_from_radii bodies words : forall i,
  List.map (fun w => (word w, r w)) (relax_from env bodies i words) =
  List.map (fun w => (word w, r w)) words.
Proof.
  induction words as [|w rest IH]; intros i; simpl; [reflexivity|].
  rewrite IH.
  destruct (relax_frame env bodies i w) as (-> & _ & _ & _ & _ & -> & _).
  reflexivity.
Qed.

Lemma countWords_count (words : list string) (e : Entry) :
  In e (countWords words) -> entry_count e = count_value (entry_word e) words.
Proof.
  rewrite countWords_counted. intros He.
  apply in_map_iff in He as (w & <- & _). reflexivity.
Qed.

Lemma inherited_token_radius text numClusters minR maxR result w :
  visualize env text numClusters minR maxR = Returns result ->
  In w (basic_forms env text) -> inherited w = true -> w <> "__proto__" ->
  exists bubble, In bubble result /\ word bubble = w /\ r bubble = Undefined.
Proof.
  intros Hv Hin Hinh Hne.
  destruct (visualize_steps env text numClusters minR maxR result Hv)
    as (xy & groups & placed & _ & _ & Hplace & ->).
  assert (Ht : In w (tokenize env text)).
  { apply tokenize_In. split; [exact Hin|]. unfold in_vocabulary.
    destruct (vocabulary env !! w); [reflexivity|exact Hinh]. }
  destruct (countWords_keys (tokenize env text)) as (_ & _ & Hall).
  destruct (Hall w Ht Hne) as (e & He & Hw).
  pose proof (countWords_count _ e He) as Hc.
  unfold count_value in Hc. rewrite Hw, Hinh in Hc.
  assert (Hpair : In (w, Undefined)
            (List.map (fun b => (word b, r b)) (improveLayout env placed))).
  { unfold improveLayout. rewrite relax_from_radii, (place_radii _ _ _ _ _ _ Hplace).
    apply in_map_iff. exists e. split; [|exact He].
    rewrite Hw, Hc. reflexivity. }
  apply in_map_iff in Hpair as (bubble & Hb & Hin').
  injection Hb as Hbw Hbr. exists bubble. tauto.
Qed.

End InheritedToken.

(** A basic form that names a member of [Object.prototype] (other than
    [__proto__]) passes the filter of [tokenize]; its count is a string, so
    the radius scale returns [undefined] for it, and whenever [visualize]
    returns, the Word of that token has the radius [undefined] and the
    scale of [Chart] over the returned Words is [NaN]. *)
Theorem inherited_token_breaks_chart (env : Env) (text : string) (numClusters : Z)
    (minR maxR : R) (result : list Word) (w : string) :
  visualize env text numClusters minR maxR = Returns result ->
  In w (basic_forms env text) -> inherited w = true -> w <> "__proto__" ->
  (exists bubble, In bubble result /\ word bubble = w /\ r bubble = Undefined) /\
  ChartLayout.Chart_scale result = ChartLayout.XNaN.
Proof.
  intros Hv Hin Hinh Hne.
  destruct (inherited_token_radius env text numClusters minR maxR result w
              Hv Hin Hinh Hne) as (bubble & Hb & Hw & Hr).
  split; [now exists bubble|].
  apply (Chart_scale_nan result bubble Hb). now rewrite Hr.
Qed.

Lemma inherited_token_breaks_chart_witness :
  exists result,
    visualize (Sample.sample_env (fun _ => 0) Sample.one_cluster 1)
              "constructor" 1 6 30 = Returns result /\
    ChartLayout.Chart_scale result = ChartLayout.XNaN.
Proof.
  assert (Hv : visualize (Sample.sample_env (fun _ => 0) Sample.one_cluster 1)
                         "constructor" 1 6 30
               = Returns (improveLayout (Sample.sample_env (fun _ => 0) Sample.one_cluster 1)
                   [mkWord "constructor" (JStr "constructor" 1)
                      (0 * 600) (0 * 600) (0 * 600) (0 * 600) (Some 0) Undefined
                      None None None]))
    by reflexivity.
  eexists. split; [exact Hv|].
  exact (proj2 (inherited_token_breaks_chart _ _ _ _ _ _ "constructor" Hv
                  (or_introl eq_refl) eq_refl ltac:(discriminate))).
Defined.
